(** * Backtesting of overnight strategies (backtesting-overnight.py)

    A shallow embedding of the return calculator, the chart renderer and
    the driver of [src/backtesting-overnight.py].

    Prices are idealised as exact rationals ([Qc], canonical rationals with
    Leibniz equality); a pandas [NaN] is [None].  A [pandas.DataFrame] of
    prices (the result of [yf.download]) is a date index plus a list of
    columns keyed by [(field, ticker)]; the DataFrame built by
    [calculate_returns] is a date index plus columns keyed by ticker.
    Exceptions are an explicit sum type, and the messages shown with
    [st.error] are events emitted in a small writer/error monad. *)

From Stdlib Require Import List String Ascii Bool Arith Lia.
From Stdlib Require Import QArith Qcanon.
Import ListNotations.

Open Scope Qc_scope.

(** ** Values and exceptions *)

Definition date := nat.

(** A float cell of a DataFrame: [None] is [NaN]. *)
Definition value := option Qc.

Definition tenth : Qc := Q2Qc (1 # 10).

Definition qltb (a b : Qc) : bool :=
  match a ?= b with Lt => true | _ => false end.

Definition qeqb (a b : Qc) : bool :=
  match a ?= b with Eq => true | _ => false end.

Definition qmin (a b : Qc) : Qc := if qltb b a then b else a.
Definition qmax (a b : Qc) : Qc := if qltb a b then b else a.

(** Elementwise arithmetic of pandas Series.  A quotient by zero is not a
    finite number (pandas gives +-inf for [x / 0] with [x <> 0], NaN for
    [0 / 0]); values here are finite rationals or NaN, so it is represented
    as [None].  The properties below exclude zero divisors by hypothesis
    wherever this case matters. *)
Definition vdiv (x y : value) : value :=
  match x, y with
  | Some a, Some b => if qeqb b 0 then None else Some (a / b)
  | _, _ => None
  end.

Definition vsub (x : value) (c : Qc) : value := option_map (fun a => a - c) x.
Definition vadd (c : Qc) (x : value) : value := option_map (fun a => c + a) x.

(** The key of a [KeyError]: a [(field, ticker)] column of the price table,
    or a ticker column of a returns DataFrame. *)
Inductive key :=
| KTable (field ticker : string)
| KFrame (ticker : string).

Inductive exn :=
| KeyError (k : key)
| ValueError (msg : string)
| IndexError.

(** ** The price table (result of [fetch_data]) *)

Record table := mk_table {
  t_index : list date;
  t_cols : list ((string * string) * list value)
}.

(** Every column holds one cell per date of the index. *)
Definition wf_table (d : table) : Prop :=
  Forall (fun c => List.length (snd c) = List.length (t_index d)) (t_cols d).

(** [data[field, ticker]]. *)
Definition get_col (d : table) (f t : string) : exn + list value :=
  match find (fun c => String.eqb (fst (fst c)) f && String.eqb (snd (fst c)) t)
              (t_cols d) with
  | Some c => inr (snd c)
  | None => inl (KeyError (KTable f t))
  end.

(** [pd.Index.unique]: first occurrences, in order. *)
Fixpoint unique_aux (seen : list string) (l : list string) : list string :=
  match l with
  | [] => []
  | x :: r =>
      if existsb (String.eqb x) seen then unique_aux seen r
      else x :: unique_aux (x :: seen) r
  end.

Definition unique (l : list string) : list string := unique_aux [] l.

(** [data.columns.get_level_values(1).unique()]. *)
Definition tickers_of (d : table) : list string :=
  unique (map (fun c => snd (fst c)) (t_cols d)).

(** [data.empty]: one of the two axes has length zero. *)
Definition table_empty (d : table) : bool :=
  match t_index d, t_cols d with
  | [], _ | _, [] => true
  | _, _ => false
  end.

(** ** Series operations *)

Definition series := list (date * value).

(** [s.shift(-1)]. *)
Definition shift_m1 (l : list value) : list value :=
  match l with
  | [] => []
  | _ :: r => r ++ [None]
  end.

(** [s.pct_change()] on a gap-free column: [x(i) / x(i-1) - 1].  (Before
    pandas 3, [pct_change] first forward-fills interior NaN; that case is
    not modelled, and the properties below do not depend on it.) *)
Definition pct_change (l : list value) : list value :=
  match l with
  | [] => []
  | _ :: r => None :: map (fun p => vsub (vdiv (snd p) (fst p)) 1) (combine l r)
  end.

(** [s.dropna()]. *)
Definition dropna (s : series) : series :=
  filter (fun p => match snd p with Some _ => true | None => false end) s.

(** [s.cumprod()] (skipna): NaN cells stay NaN and are skipped by the
    running product, which starts from 1. *)
Fixpoint cumprod_from (acc : Qc) (l : list value) : list value :=
  match l with
  | [] => []
  | None :: r => None :: cumprod_from acc r
  | Some x :: r => Some (acc * x) :: cumprod_from (acc * x) r
  end.

(** [(1 + daily_returns).cumprod()]. *)
Definition cumulative (s : series) : series :=
  combine (map fst s) (cumprod_from 1 (map (fun p => vadd 1 (snd p)) s)).

(** ** The returns DataFrame *)

Record frame := mk_frame {
  f_index : list date;
  f_cols : list (string * list value)
}.

(** [pd.DataFrame()]. *)
Definition empty_frame : frame := mk_frame [] [].

Fixpoint lookup_date (x : date) (s : series) : value :=
  match s with
  | [] => None
  | (y, v) :: r => if Nat.eqb x y then v else lookup_date x r
  end.

(** [s.reindex(idx)]. *)
Definition reindex (idx : list date) (s : series) : list value :=
  map (fun x => lookup_date x s) idx.

(** [returns[t] = s] for a new column [t]: a DataFrame with an empty index
    first takes the index of a non-empty Series (its existing columns are
    reindexed to it); the Series is then aligned on the DataFrame index. *)
Definition set_col (f : frame) (t : string) (s : series) : frame :=
  let f' :=
    match f_index f, s with
    | [], _ :: _ =>
        mk_frame (map fst s) (map (fun c => (fst c, reindex (map fst s) [])) (f_cols f))
    | _, _ => f
    end in
  mk_frame (f_index f') (f_cols f' ++ [(t, reindex (f_index f') s)]).

(** [returns[t]] as an option. *)
Definition frame_col (f : frame) (t : string) : option (list value) :=
  option_map snd (find (fun c => String.eqb (fst c) t) (f_cols f)).

(** ** Events and the writer/error monad *)

Inductive strat_label := OpenToClose | CloseToOpen | BuyAndHold.

(** Trace names: [f'{ticker} - Apertura a Cierre'], [... - Cierre a
    Apertura], [... - Comprar y Mantener], and ['Inversion Inicial']. *)
Inductive trace_name :=
| TStrategy (ticker : string) (s : strat_label)
| TInitial.

Record trace := mk_trace {
  tr_name : trace_name;
  tr_x : list date;
  tr_y : list value
}.

(** The figure: its traces and, on a log axis, the arguments [(lo, hi)]
    of the y-axis range [[np.log10(lo), np.log10(hi)]]. *)
Record figure := mk_figure {
  fig_traces : list trace;
  fig_yrange : option (Qc * value)
}.

Inductive event :=
| EWarn (ticker : string) (k : key)  (* st.error in calculate_returns *)
| ENoSymbols                        (* "Por favor, ingrese al menos un simbolo" *)
| EFetch (tickers : list string)    (* fetch_data called with these symbols *)
| ENoData                           (* "No se encontraron datos ..." *)
| EExc (e : exn)                    (* "Ocurrio un error: {e}" *)
| EChart (fig : figure).            (* st.plotly_chart(fig) *)

Definition M (A : Type) : Type := (list event * (exn + A))%type.

Definition ret {A} (a : A) : M A := ([], inr a).
Definition raise {A} (e : exn) : M A := ([], inl e).
Definition lift {A} (r : exn + A) : M A := ([], r).
Definition emit (e : event) : M unit := ([e], inr tt).

Definition bind {A B} (m : M A) (k : A -> M B) : M B :=
  let '(w, r) := m in
  match r with
  | inl e => (w, inl e)
  | inr a => let '(w', r') := k a in (w ++ w', r')
  end.

Notation "x <- m ;; k" := (bind m (fun x => k))
  (at level 61, m at next level, right associativity).

(** ** calculate_returns *)

Definition ratio_minus_one (p : value * value) : value :=
  vsub (vdiv (fst p) (snd p)) 1.

(** The body of the [try] for one ticker, up to [daily_returns]. *)
Definition daily_returns (d : table) (strategy t : string) : exn + series :=
  if String.eqb strategy "open_to_close" then
    match get_col d "Close" t with
    | inl e => inl e
    | inr cl =>
      match get_col d "Open" t with
      | inl e => inl e
      | inr op => inr (combine (t_index d) (map ratio_minus_one (combine cl op)))
      end
    end
  else if String.eqb strategy "close_to_open" then
    match get_col d "Open" t with
    | inl e => inl e
    | inr op =>
      match get_col d "Close" t with
      | inl e => inl e
      | inr cl =>
          inr (dropna (combine (t_index d)
                         (map ratio_minus_one (combine (shift_m1 op) cl))))
      end
    end
  else if String.eqb strategy "buy_and_hold" then
    match get_col d "Adj Close" t with
    | inl e => inl e
    | inr ac => inr (dropna (combine (t_index d) (pct_change ac)))
    end
  else inl (ValueError "Invalid strategy").

(** The loop over tickers: a [KeyError] is reported and the ticker
    skipped; any other exception escapes. *)
Fixpoint calc_loop (d : table) (strategy : string) (ts : list string)
    (acc : frame) : M frame :=
  match ts with
  | [] => ret acc
  | t :: r =>
      match daily_returns d strategy t with
      | inl (KeyError k) => _ <- emit (EWarn t k) ;; calc_loop d strategy r acc
      | inl e => raise e
      | inr s => calc_loop d strategy r (set_col acc t (cumulative s))
      end
  end.

Definition calculate_returns (d : table) (strategy : string) : M frame :=
  calc_loop d strategy (tickers_of d) empty_frame.

(** ** plot_investment_value *)

(** [returns[ticker]], raising [KeyError]. *)
Definition frame_get (f : frame) (t : string) : exn + list value :=
  match frame_col f t with
  | Some c => inr c
  | None => inl (KeyError (KFrame t))
  end.

(** [series * initial_investment]. *)
Definition scale (inv : Qc) (v : value) : value := option_map (fun r => r * inv) v.

(** The [for ticker in returns_open_to_close.columns] loop: the traces it
    adds and the values it appends to [all_values]. *)
Fixpoint plot_loop (o c b : frame) (inv : Qc) (ts : list string)
    : exn + (list trace * list value) :=
  match ts with
  | [] => inr ([], [])
  | t :: r =>
      match frame_get o t with
      | inl e => inl e
      | inr co =>
      match frame_get c t with
      | inl e => inl e
      | inr cc =>
      match frame_get b t with
      | inl e => inl e
      | inr cb =>
          let yo := map (scale inv) co in
          let yc := map (scale inv) cc in
          let yb := map (scale inv) cb in
          match plot_loop o c b inv r with
          | inl e => inl e
          | inr (trs, vals) =>
              inr ([mk_trace (TStrategy t OpenToClose) (f_index o) yo;
                    mk_trace (TStrategy t CloseToOpen) (f_index c) yc;
                    mk_trace (TStrategy t BuyAndHold) (f_index b) yb] ++ trs,
                   yo ++ yc ++ yb ++ vals)
          end
      end
      end
      end
  end.

(** [all_values[all_values > 0]] ([NaN > 0] is false). *)
Definition positives (l : list value) : list Qc :=
  flat_map (fun v => match v with
                     | Some x => if qltb 0 x then [x] else []
                     | None => []
                     end) l.

Fixpoint all_some (l : list value) : option (list Qc) :=
  match l with
  | [] => Some []
  | None :: _ => None
  | Some x :: r => option_map (cons x) (all_some r)
  end.

(** [np.min(all_values[all_values > 0]) if np.any(all_values > 0) else 0.1]. *)
Definition min_positive (l : list value) : Qc :=
  match positives l with
  | [] => tenth
  | x :: r => fold_left qmin r x
  end.

(** [np.max(all_values)]: [NaN] as soon as one value is [NaN]. *)
Definition np_max (l : list value) : value :=
  match all_some l with
  | Some (x :: r) => Some (fold_left qmax r x)
  | _ => None
  end.

(** Lines 68-73: the arguments of the two [np.log10] calls of the y-axis
    range ([NaN] comparisons are false). *)
Definition log_range (all_values : list value) : Qc * value :=
  let min_val := min_positive all_values in
  let max_val := np_max all_values in
  let range_padding := option_map (fun m => tenth * (m - min_val)) max_val in
  let lo := match range_padding with
            | Some p => if qltb 0 (min_val - p) then min_val - p else tenth
            | None => tenth
            end in
  let hi := match max_val, range_padding with
            | Some m, Some p => Some (m + p)
            | _, _ => None
            end in
  (lo, hi).

Definition plot_investment_value (o c b : frame) (inv : Qc) (log_scale : bool)
    : exn + figure :=
  match plot_loop o c b inv (map fst (f_cols o)) with
  | inl e => inl e
  | inr (trs, vals) =>
      match f_index o with
      | [] => inl IndexError  (* returns_open_to_close.index[0] *)
      | d0 :: _ =>
          let initial := mk_trace TInitial [d0; last (f_index o) d0] [Some inv; Some inv] in
          inr (mk_figure (trs ++ [initial])
                 (if log_scale then Some (log_range (vals ++ [Some inv])) else None))
      end
  end.

(** ** main: parsing of the ticker input (ASCII text) *)

(** [str.isspace] on ASCII: \t \n \x0b \x0c \r, \x1c-\x1f and space. *)
Definition is_space (a : ascii) : bool :=
  let n := nat_of_ascii a in
  ((9 <=? n) && (n <=? 13)) || ((28 <=? n) && (n <=? 32)).

Definition upper_char (a : ascii) : ascii :=
  let n := nat_of_ascii a in
  if (97 <=? n) && (n <=? 122) then ascii_of_nat (n - 32) else a.

(** [str.upper]. *)
Definition py_upper (s : string) : string :=
  string_of_list_ascii (map upper_char (list_ascii_of_string s)).

Fixpoint drop_spaces (l : list ascii) : list ascii :=
  match l with
  | [] => []
  | a :: r => if is_space a then drop_spaces r else l
  end.

(** [str.strip()]. *)
Definition py_strip (s : string) : string :=
  string_of_list_ascii (rev (drop_spaces (rev (drop_spaces (list_ascii_of_string s))))).

(** [str.split(',')]. *)
Fixpoint py_split_comma (s : string) : list string :=
  match s with
  | EmptyString => [EmptyString]
  | String a r =>
      if Ascii.eqb a ","%char then EmptyString :: py_split_comma r
      else match py_split_comma r with
           | [] => [String a EmptyString]
           | h :: tl => String a h :: tl
           end
  end.

(** Lines 84-85. *)
Definition parse_tickers (input : string) : list string :=
  firstn 5 (map py_strip (py_split_comma (py_upper input))).

(** The body of the [try] in [main] (lines 94-101). *)
Definition run_backtest (fetch : list string -> exn + table) (tickers : list string)
    (inv : Qc) (log_scale : bool) : M unit :=
  _ <- emit (EFetch tickers) ;;
  data <- lift (fetch tickers) ;;
  if table_empty data then emit ENoData else
  o <- calculate_returns data "open_to_close" ;;
  c <- calculate_returns data "close_to_open" ;;
  b <- calculate_returns data "buy_and_hold" ;;
  fig <- lift (plot_investment_value o c b inv log_scale) ;;
  emit (EChart fig).

(** [main] after the button press: [fetch] is [fetch_data] on the chosen
    dates; the result is the list of messages and charts shown. *)
Definition main_run (input : string) (inv : Qc) (log_scale : bool)
    (fetch : list string -> exn + table) : list event :=
  let tickers := parse_tickers input in
  match tickers with
  | [] => [ENoSymbols]
  | _ =>
      let '(w, r) := run_backtest fetch tickers inv log_scale in
      w ++ match r with inl e => [EExc e] | inr _ => [] end
  end.

(** * Specification-side notions *)

Definition valid_strategy (s : string) : Prop :=
  s = "open_to_close"%string \/ s = "close_to_open"%string \/ s = "buy_and_hold"%string.

(** The fields a strategy reads for a ticker (section 4.1 of the spec). *)
Definition has_fields (d : table) (st t : string) : Prop :=
  if String.eqb st "buy_and_hold" then exists ac, get_col d "Adj Close" t = inr ac
  else (exists op, get_col d "Open" t = inr op) /\ (exists cl, get_col d "Close" t = inr cl).

(** Product of a list of ratios. *)
Definition prod (l : list Qc) : Qc := fold_right Qcmult 1 l.

(** [Close(e)/Open(e)] for each date. *)
Definition quotients (num den : list Qc) : list Qc :=
  map (fun p => fst p / snd p) (combine num den).

Definition warns (d : table) (st : string) (ts : list string) : list event :=
  flat_map (fun t => match daily_returns d st t with
                     | inl (KeyError k) => [EWarn t k]
                     | _ => []
                     end) ts.

Definition succeeds (d : table) (st t : string) : bool :=
  match daily_returns d st t with inr _ => true | inl _ => false end.

Definition succ_col (d : table) (st t : string) : list (string * list value) :=
  match daily_returns d st t with
  | inr s => [(t, map snd (cumulative s))]
  | inl _ => []
  end.

(** Claim C2 as the spec states it, for one ticker [t] of [d]: the
    close-to-open series of a ticker with gap-free prices has n-1 points,
    the running products of Open(d+1)/Close(d). *)
Definition close_to_open_claim (d : table) (t : string) : Prop :=
  forall os cs,
    get_col d "Open" t = inr (map Some os) ->
    get_col d "Close" t = inr (map Some cs) ->
    Forall (fun c => c <> 0) cs ->
    exists ws f col,
      calculate_returns d "close_to_open" = (ws, inr f) /\
      frame_col f t = Some col /\
      List.length col = pred (List.length (t_index d)) /\
      forall i, (i < pred (List.length (t_index d)))%nat ->
        nth i col None = Some (prod (firstn (S i) (quotients (tl os) cs))).

(** Every ticker that has Open and Close columns has a price on every date
    of the table, and a non-zero Close. *)
Definition gap_free_open_close (d : table) : Prop :=
  forall u op cl,
    get_col d "Open" u = inr op -> get_col d "Close" u = inr cl ->
    exists os cs, op = map Some os /\ cl = map Some cs /\ Forall (fun c => c <> 0) cs.

(** * Concrete inputs *)

Definition px (x : Q) : value := Some (Q2Qc x).

(** Ticker X, Open = [10, 11], Close = [10.5, 11.5] on two dates. *)
Definition tbl_x : table :=
  mk_table [1; 2]%nat
    [(("Open", "X")%string, [px 10; px 11]);
     (("Close", "X")%string, [px (21 # 2); px (23 # 2)])].

(** Ticker X on a single date. *)
Definition tbl_one_day : table :=
  mk_table [1]%nat
    [(("Open", "X")%string, [px 10]);
     (("Close", "X")%string, [px (21 # 2)])].

(** Ticker A has no Open value on date 2; ticker B is gap-free. *)
Definition tbl_gap : table :=
  mk_table [1; 2; 3]%nat
    [(("Open", "A")%string, [px 10; None; px 10]);
     (("Close", "A")%string, [px 10; px 10; px 10]);
     (("Open", "B")%string, [px 20; px 22; px 24]);
     (("Close", "B")%string, [px 21; px 23; px 25])].

(** Ticker A has every field; ticker B has no Adj Close column. *)
Definition tbl_ab : table :=
  mk_table [1; 2]%nat
    [(("Adj Close", "A")%string, [px 10; px 11]);
     (("Close", "A")%string, [px 10; px 11]);
     (("Open", "A")%string, [px 9; px 10]);
     (("Close", "B")%string, [px 20; px 21]);
     (("Open", "B")%string, [px 19; px 20])].

(** The empty price table. *)
Definition tbl_empty : table := mk_table [] [].

(** Returns DataFrames of one ticker X: open-to-close [1.0, 1.05]. *)
Definition fr_o : frame := mk_frame [1; 2]%nat [("X"%string, [px 1; px (21 # 20)])].
Definition fr_c : frame := mk_frame [1]%nat [("X"%string, [px 1])].
Definition fr_b : frame := mk_frame [2]%nat [("X"%string, [px (21 # 20)])].

(** One-date returns DataFrames of a ticker T holding the value [x]. *)
Definition fr_one (x : Q) : frame := mk_frame [1]%nat [("T"%string, [px x])].

(** A fetch that returns the same table for any symbols. *)
Definition fetch_const (d : table) : list string -> exn + table := fun _ => inr d.

(** The returns DataFrame of a strategy among the three passed to the
    renderer. *)
Definition frame_of (s : strat_label) (o c b : frame) : frame :=
  match s with
  | OpenToClose => o
  | CloseToOpen => c
  | BuyAndHold => b
  end.

(** Every y value of every trace of the figure. *)
Definition drawn_values (fig : figure) : list value := List.concat (map tr_y (fig_traces fig)).

Definition is_max (l : list Qc) (m : Qc) : Prop := In m l /\ Forall (fun x => x <= m) l.
Definition is_min (l : list Qc) (m : Qc) : Prop := In m l /\ Forall (fun x => m <= x) l.

(** A character of an input made only of whitespace and commas. *)
Definition space_or_comma (a : ascii) : bool := is_space a || Ascii.eqb a ","%char.

(** The number of commas of a text. *)
Definition commas (s : string) : nat :=
  List.length (filter (fun a => Ascii.eqb a ","%char) (list_ascii_of_string s)).

(** An ASCII lowercase letter a-z. *)
Definition is_lower (a : ascii) : bool :=
  let n := nat_of_ascii a in (97 <=? n) && (n <=? 122).

(** Each column is the reindexed cumulative series of its ticker; while
    the index is empty, every series seen so far is empty. *)
Definition aligned (d : table) (st : string) (f : frame) : Prop :=
  Forall (fun c => exists s, daily_returns d st (fst c) = inr s /\
                             snd c = reindex (f_index f) (cumulative s) /\
                             (f_index f = [] -> s = [])) (f_cols f).

(** The column names of a returns DataFrame. *)
Definition names (f : frame) : list string := map fst (f_cols f).

(** Ticker A has every field with numbers on both dates. *)
Definition tbl_full : table :=
  mk_table [1; 2]%nat
    [(("Adj Close", "A")%string, [px 10; px 11]);
     (("Close", "A")%string, [px 10; px 11]);
     (("Open", "A")%string, [px 9; px 10])].

(** * General lemmas *)

Lemma qeqb_true a b : qeqb a b = true <-> a = b.
Proof.
  unfold qeqb, Qccompare. split.
  - intro H. apply Qc_is_canon. apply Qeq_alt.
    destruct (Qcompare a b); congruence.
  - intros ->. assert (E : (this b ?= this b)%Q = Eq) by (apply Qeq_alt; reflexivity).
    rewrite E. reflexivity.
Qed.

Lemma qeqb_false a b : a <> b -> qeqb a b = false.
Proof.
  intro H. destruct (qeqb a b) eqn:E; [|reflexivity].
  apply qeqb_true in E. contradiction.
Qed.

Lemma qltb_true a b : qltb a b = true <-> a < b.
Proof.
  unfold qltb, Qccompare, Qclt. rewrite Qlt_alt.
  destruct (Qcompare a b); split; congruence.
Qed.

Lemma in_unique_aux x seen l :
  In x (unique_aux seen l) <-> In x l /\ ~ In x seen.
Proof.
  revert seen. induction l as [|y r IH]; intro seen; simpl.
  - tauto.
  - destruct (existsb (String.eqb y) seen) eqn:E.
    + rewrite IH. apply existsb_exists in E as [z [Hz Ez]].
      apply String.eqb_eq in Ez. subst z. split.
      * tauto.
      * intros [[<-|H] N]; [contradiction|tauto].
    + simpl. rewrite IH. simpl. split.
      * intros [Ey|[H N]]; [subst y; split; [left; reflexivity|]|tauto].
        intro Hin. assert (existsb (String.eqb x) seen = true)
          by (apply existsb_exists; exists x; split; [exact Hin | apply String.eqb_refl]).
        congruence.
      * intros [[Ey|H] N]; [left; exact Ey|].
        destruct (String.eqb_spec y x); [left; assumption|right; tauto].
Qed.

Lemma get_col_cases d f t :
  (exists c, get_col d f t = inr c) \/ get_col d f t = inl (KeyError (KTable f t)).
Proof.
  unfold get_col. destruct (find _ _); [left; eexists; reflexivity|right; reflexivity].
Qed.

Lemma get_col_in_tickers d f t c :
  get_col d f t = inr c -> In t (tickers_of d).
Proof.
  unfold get_col, tickers_of, unique. destruct (find _ _) as [p|] eqn:E; [|discriminate].
  intros _. apply in_unique_aux. split; [|simpl; tauto].
  apply find_some in E as [Hin Hp]. apply andb_prop in Hp as [_ Ht].
  apply String.eqb_eq in Ht. subst t. apply in_map_iff. exists p. auto.
Qed.

Lemma daily_returns_cases d st t :
  valid_strategy st ->
  (exists s, daily_returns d st t = inr s) \/
  (exists k, daily_returns d st t = inl (KeyError k)).
Proof.
  intros [ -> | [ -> | -> ]]; unfold daily_returns; simpl.
  - destruct (get_col_cases d "Close" t) as [[cl ->]| ->]; [|right; eauto].
    destruct (get_col_cases d "Open" t) as [[op ->]| ->]; [left|right]; eauto.
  - destruct (get_col_cases d "Open" t) as [[op ->]| ->]; [|right; eauto].
    destruct (get_col_cases d "Close" t) as [[cl ->]| ->]; [left|right]; eauto.
  - destruct (get_col_cases d "Adj Close" t) as [[ac ->]| ->]; [left|right]; eauto.
Qed.

Lemma succeeds_has_fields d st t :
  valid_strategy st -> succeeds d st t = true <-> has_fields d st t.
Proof.
  unfold succeeds, has_fields.
  intros [ -> | [ -> | -> ]]; unfold daily_returns; simpl.
  - destruct (get_col_cases d "Close" t) as [[cl ->]| ->];
    destruct (get_col_cases d "Open" t) as [[op ->]| ->]; split;
      try discriminate; try (intros [[? ?] [? ?]]; discriminate); eauto.
  - destruct (get_col_cases d "Open" t) as [[op ->]| ->];
    destruct (get_col_cases d "Close" t) as [[cl ->]| ->]; split;
      try discriminate; try (intros [[? ?] [? ?]]; discriminate); eauto.
  - destruct (get_col_cases d "Adj Close" t) as [[ac ->]| ->]; split;
      try discriminate; try (intros [? ?]; discriminate); eauto.
Qed.

Lemma set_col_names f t s :
  map fst (f_cols (set_col f t s)) = map fst (f_cols f) ++ [t].
Proof.
  unfold set_col. destruct (f_index f), s; simpl; rewrite ?map_app, ?map_map; reflexivity.
Qed.

(** The ticker loop under a valid strategy: one warning per ticker that
    raises [KeyError], one column per ticker that does not. *)
Lemma calc_loop_names d st ts acc :
  valid_strategy st ->
  exists f, calc_loop d st ts acc = (warns d st ts, inr f) /\
    map fst (f_cols f) = map fst (f_cols acc) ++ filter (succeeds d st) ts.
Proof.
  intro Hv. revert acc. induction ts as [|t r IH]; intro acc; simpl.
  - exists acc. rewrite app_nil_r. auto.
  - unfold warns at 1, succeeds at 1; simpl.
    destruct (daily_returns_cases d st t Hv) as [[s Hs]|[k Hk]].
    + rewrite Hs. destruct (IH (set_col acc t (cumulative s))) as [f [Hf Hn]].
      exists f. rewrite Hf. split; [reflexivity|].
      rewrite Hn, set_col_names, <- app_assoc. reflexivity.
    + rewrite Hk. destruct (IH acc) as [f [Hf Hn]].
      exists f. unfold bind, emit; simpl. rewrite Hf. simpl. auto.
Qed.

Lemma fst_combine {A B} (l1 : list A) (l2 : list B) :
  (List.length l1 <= List.length l2)%nat -> map fst (combine l1 l2) = l1.
Proof.
  revert l2. induction l1 as [|x r IH]; intros [|y l2] H; simpl in *; try lia; auto.
  f_equal. apply IH. lia.
Qed.

Lemma snd_combine {A B} (l1 : list A) (l2 : list B) :
  (List.length l2 <= List.length l1)%nat -> map snd (combine l1 l2) = l2.
Proof.
  revert l2. induction l1 as [|x r IH]; intros [|y l2] H; simpl in *; try lia; auto.
  f_equal. apply IH. lia.
Qed.

Lemma cumprod_from_length acc l : List.length (cumprod_from acc l) = List.length l.
Proof.
  revert acc. induction l as [|[x|] r IH]; intro acc; simpl; rewrite ?IH; reflexivity.
Qed.

Lemma cumulative_dates s : map fst (cumulative s) = map fst s.
Proof.
  unfold cumulative. apply fst_combine. rewrite cumprod_from_length, !length_map. lia.
Qed.

Lemma cumulative_values s :
  map snd (cumulative s) = cumprod_from 1 (map (fun p => vadd 1 (snd p)) s).
Proof.
  unfold cumulative. apply snd_combine. rewrite cumprod_from_length, !length_map. lia.
Qed.

Lemma reindex_self s : NoDup (map fst s) -> reindex (map fst s) s = map snd s.
Proof.
  unfold reindex. induction s as [|[y v] r IH]; intro Hnd; simpl in *; [reflexivity|].
  inversion Hnd as [|? ? Hy Hr]; subst.
  rewrite Nat.eqb_refl. f_equal. rewrite <- IH by assumption.
  apply map_ext_in. intros x Hx. destruct (Nat.eqb_spec x y); [subst; contradiction|reflexivity].
Qed.

Lemma set_col_keep f t s :
  (f_index f <> [] \/ s = []) ->
  set_col f t s = mk_frame (f_index f) (f_cols f ++ [(t, reindex (f_index f) s)]).
Proof.
  intro H. unfold set_col. destruct (f_index f) eqn:E, s; simpl; rewrite ?E; try reflexivity.
  exfalso. destruct H as [H|H]; [apply H; reflexivity|discriminate].
Qed.

Lemma set_col_first f t p s :
  f_index f = [] ->
  set_col f t (p :: s) =
  mk_frame (map fst (p :: s))
    (map (fun c => (fst c, reindex (map fst (p :: s)) [])) (f_cols f)
     ++ [(t, reindex (map fst (p :: s)) (p :: s))]).
Proof. intro E. unfold set_col. rewrite E. reflexivity. Qed.

(** [returns[t] = s] when every Series has the same dates [J]: the
    DataFrame index becomes [J] and the new column holds the values of [s]. *)
Lemma set_col_uniform f t s J :
  NoDup J -> map fst s = J ->
  (f_index f = J \/ (f_index f = [] /\ f_cols f = [])) ->
  f_index (set_col f t s) = J /\ f_cols (set_col f t s) = f_cols f ++ [(t, map snd s)].
Proof.
  intros Hnd Hs Hf.
  assert (R : reindex J s = map snd s) by (rewrite <- Hs; apply reindex_self; rewrite Hs; exact Hnd).
  destruct s as [|p s'].
  - simpl in Hs. subst J. rewrite set_col_keep by (right; reflexivity). simpl.
    destruct Hf as [HJ|[HJ _]]; rewrite HJ; auto.
  - destruct Hf as [HJ|[H1 H2]].
    + rewrite set_col_keep by (left; rewrite HJ, <- Hs; discriminate). simpl.
      rewrite HJ, R. auto.
    + rewrite set_col_first by exact H1. cbn [f_index f_cols].
      rewrite H2, Hs, R. auto.
Qed.

(** The ticker loop when every ticker's daily returns have the same dates. *)
Lemma calc_loop_uniform d st ts acc J :
  valid_strategy st -> NoDup J ->
  (forall t s, In t ts -> daily_returns d st t = inr s -> map fst s = J) ->
  (f_index acc = J \/ (f_index acc = [] /\ f_cols acc = [])) ->
  exists f, calc_loop d st ts acc = (warns d st ts, inr f) /\
    f_cols f = f_cols acc ++ flat_map (succ_col d st) ts /\
    (f_index f = J \/ (f_index f = [] /\ f_cols f = [])).
Proof.
  intros Hv Hnd. revert acc. induction ts as [|t r IH]; intros acc Hall Hacc; simpl.
  - exists acc. rewrite app_nil_r. auto.
  - unfold warns at 1, succ_col at 1; simpl.
    destruct (daily_returns_cases d st t Hv) as [[s Hs]|[k Hk]].
    + rewrite Hs.
      assert (Hd : map fst (cumulative s) = J)
        by (rewrite cumulative_dates; apply (Hall t); [left|]; auto).
      destruct (set_col_uniform acc t (cumulative s) J Hnd Hd Hacc) as [Hi Hc].
      destruct (IH (set_col acc t (cumulative s))) as [f [Hf [Hfc Hfi]]].
      * intros u su Hu. apply Hall. right; exact Hu.
      * left; exact Hi.
      * exists f. rewrite Hf. split; [reflexivity|]. split; [|exact Hfi].
        rewrite Hfc, Hc, <- app_assoc. reflexivity.
    + rewrite Hk. destruct (IH acc) as [f [Hf Hfc]].
      * intros u su Hu. apply Hall. right; exact Hu.
      * exact Hacc.
      * exists f. unfold bind, emit; simpl. rewrite Hf. simpl. auto.
Qed.

Lemma find_succ_col d st ts t s :
  In t ts -> daily_returns d st t = inr s ->
  find (fun c => String.eqb (fst c) t) (flat_map (succ_col d st) ts)
  = Some (t, map snd (cumulative s)).
Proof.
  intros Hin Hs. induction ts as [|u r IH]; [contradiction|].
  simpl. destruct (String.eqb_spec u t) as [->|Hne].
  - unfold succ_col. rewrite Hs. simpl. rewrite String.eqb_refl. reflexivity.
  - destruct Hin as [->|Hin]; [contradiction|].
    unfold succ_col. destruct (daily_returns d st u); simpl; [|apply String.eqb_neq in Hne; rewrite Hne];
      apply IH; exact Hin.
Qed.

Lemma get_col_In d f t c : get_col d f t = inr c -> In ((f, t), c) (t_cols d).
Proof.
  unfold get_col. destruct (find _ _) as [[[f' t'] c']|] eqn:E; [|discriminate].
  intro H. injection H as <-. apply find_some in E as [Hin Hp].
  simpl in Hp. apply andb_prop in Hp as [Hf Ht].
  apply String.eqb_eq in Hf, Ht. subst. exact Hin.
Qed.

Lemma get_col_length d f t c :
  wf_table d -> get_col d f t = inr c -> List.length c = List.length (t_index d).
Proof.
  unfold wf_table, get_col. intros Hwf. destruct (find _ _) as [p|] eqn:E; [|discriminate].
  intro H. injection H as <-. apply find_some in E as [Hin _].
  rewrite Forall_forall in Hwf. apply Hwf, Hin.
Qed.

(** [cumprod] of a gap-free column is the running product. *)
Lemma cumprod_from_nth acc l i :
  (i < List.length l)%nat ->
  nth i (cumprod_from acc (map Some l)) None = Some (acc * prod (firstn (S i) l)).
Proof.
  revert acc i. induction l as [|x r IH]; intros acc i Hi; simpl in *; [lia|].
  destruct i as [|i]; simpl.
  - f_equal. unfold prod; simpl. ring.
  - rewrite IH by lia. f_equal. unfold prod; simpl. ring.
Qed.

Lemma one_plus_ratio cs os :
  Forall (fun o => o <> 0) os ->
  map (fun p => vadd 1 (ratio_minus_one p)) (combine (map Some cs) (map Some os))
  = map Some (quotients cs os).
Proof.
  revert os. induction cs as [|c cs IH]; intros [|o os] Hos; simpl; auto.
  inversion Hos; subst. unfold ratio_minus_one, vdiv; simpl.
  rewrite qeqb_false by assumption. simpl. f_equal; [|apply IH; assumption].
  f_equal. ring.
Qed.

Lemma o2c_dates d t s :
  wf_table d -> daily_returns d "open_to_close" t = inr s -> map fst s = t_index d.
Proof.
  intros Hwf. unfold daily_returns; simpl.
  destruct (get_col d "Close" t) as [|cl] eqn:Ec; [discriminate|].
  destruct (get_col d "Open" t) as [|op] eqn:Eo; [discriminate|].
  intro H. injection H as <-. apply fst_combine.
  rewrite length_map, length_combine, (get_col_length _ _ _ _ Hwf Ec),
    (get_col_length _ _ _ _ Hwf Eo). lia.
Qed.

(** The open-to-close column of a ticker with gap-free, non-zero prices. *)
Lemma o2c_column d t cs os :
  wf_table d -> NoDup (t_index d) ->
  get_col d "Close" t = inr (map Some cs) ->
  get_col d "Open" t = inr (map Some os) ->
  Forall (fun o => o <> 0) os ->
  exists ws f, calculate_returns d "open_to_close" = (ws, inr f) /\
    f_index f = t_index d /\
    frame_col f t = Some (cumprod_from 1 (map Some (quotients cs os))).
Proof.
  intros Hwf Hnd Hc Ho Hnz.
  destruct (calc_loop_uniform d "open_to_close" (tickers_of d) empty_frame (t_index d))
    as [f [Hf [Hcols Hidx]]].
  - left; reflexivity.
  - exact Hnd.
  - intros u s _ Hs. eapply o2c_dates; eauto.
  - right; split; reflexivity.
  - set (s := combine (t_index d)
                (map ratio_minus_one (combine (map Some cs) (map Some os)))).
    assert (Hs : daily_returns d "open_to_close" t = inr s)
      by (unfold daily_returns; simpl; rewrite Hc, Ho; reflexivity).
    assert (Hcol : frame_col f t = Some (map snd (cumulative s))).
    { unfold frame_col. rewrite Hcols. simpl.
      rewrite (find_succ_col d _ _ t s); [reflexivity| |exact Hs].
      eapply get_col_in_tickers; exact Hc. }
    exists (warns d "open_to_close" (tickers_of d)), f.
    split; [exact Hf|]. split.
    + destruct Hidx as [Hidx|[_ Hnil]]; [exact Hidx|].
      unfold frame_col in Hcol. rewrite Hnil in Hcol. discriminate.
    + rewrite Hcol, cumulative_values. f_equal. f_equal.
      rewrite <- (map_map snd (vadd 1)). unfold s. rewrite snd_combine.
      * rewrite map_map. apply one_plus_ratio. exact Hnz.
      * pose proof (get_col_length _ _ _ _ Hwf Hc) as Lc.
        pose proof (get_col_length _ _ _ _ Hwf Ho) as Lo.
        rewrite length_map in Lc, Lo.
        rewrite length_map, length_combine, !length_map, Lc, Lo. lia.
Qed.

Lemma Q2Qc_nonzero (x : Q) : ~ (x == 0)%Q -> Q2Qc x <> 0.
Proof.
  intros H E. apply H. apply (f_equal this) in E. simpl in E.
  rewrite <- (Qred_correct x), E. reflexivity.
Qed.

(** * Claims *)

(** C1. For a ticker whose Open and Close prices are present (and Open
    non-zero) on every date d1..dn of the table, [calculate_returns] with
    ['open_to_close'] yields an n-point series on the table's dates (no row
    dropped) whose value at the i-th date is the running product of
    Close(e)/Open(e) over the dates e up to it. *)
Theorem open_to_close_cumulative (d : table) (t : string) (cs os : list Qc) :
  wf_table d -> NoDup (t_index d) ->
  get_col d "Close" t = inr (map Some cs) ->
  get_col d "Open" t = inr (map Some os) ->
  Forall (fun o => o <> 0) os ->
  exists ws f col,
    calculate_returns d "open_to_close" = (ws, inr f) /\
    f_index f = t_index d /\
    frame_col f t = Some col /\
    List.length col = List.length (t_index d) /\
    forall i, (i < List.length (t_index d))%nat ->
      nth i col None = Some (prod (firstn (S i) (quotients cs os))).
Proof.
  intros Hwf Hnd Hc Ho Hnz.
  destruct (o2c_column d t cs os Hwf Hnd Hc Ho Hnz) as [ws [f [Hf [Hi Hcol]]]].
  pose proof (get_col_length _ _ _ _ Hwf Hc) as Lc.
  pose proof (get_col_length _ _ _ _ Hwf Ho) as Lo.
  rewrite length_map in Lc, Lo.
  assert (Lq : List.length (quotients cs os) = List.length (t_index d))
    by (unfold quotients; rewrite length_map, length_combine; lia).
  exists ws, f, (cumprod_from 1 (map Some (quotients cs os))).
  repeat split; auto.
  - rewrite cumprod_from_length, length_map. exact Lq.
  - intros i Hi'. rewrite cumprod_from_nth by lia. f_equal. apply Qcmult_1_l.
Qed.

Lemma open_to_close_cumulative_witness :
  exists ws f col,
    calculate_returns tbl_x "open_to_close" = (ws, inr f) /\
    f_index f = t_index tbl_x /\
    frame_col f "X" = Some col /\
    List.length col = List.length (t_index tbl_x) /\
    forall i, (i < List.length (t_index tbl_x))%nat ->
      nth i col None = Some (prod (firstn (S i)
        (quotients [Q2Qc (21 # 2); Q2Qc (23 # 2)] [Q2Qc 10; Q2Qc 11]))).
Proof.
  apply (open_to_close_cumulative tbl_x "X" [Q2Qc (21 # 2); Q2Qc (23 # 2)] [Q2Qc 10; Q2Qc 11]).
  - repeat constructor.
  - repeat constructor; simpl; intuition discriminate.
  - reflexivity.
  - reflexivity.
  - repeat constructor; apply Q2Qc_nonzero; unfold Qeq; simpl; discriminate.
Defined.

(** The example of the spec: [1.05, 1.05 * (11.5 / 11)]. *)
Example open_to_close_example :
  exists ws f,
    calculate_returns tbl_x "open_to_close" = (ws, inr f) /\
    frame_col f "X" = Some [Some (Q2Qc (21 # 20)); Some (Q2Qc (21 # 20) * (Q2Qc (23 # 2) / Q2Qc 11))].
Proof. do 2 eexists. split; [vm_compute; reflexivity|]. vm_compute. reflexivity. Qed.

(** C3 (counterexample). On a single date with Open = 10 and Close = 10.5
    the open-to-close series is [1.05], not [1.0]: the first value is the
    first day's ratio. *)
Lemma open_to_close_first_value_not_one :
  ~ exists ws f rest,
      calculate_returns tbl_one_day "open_to_close" = (ws, inr f) /\
      frame_col f "X" = Some (Some 1 :: rest).
Proof.
  intros [ws [f [rest [H1 H2]]]].
  vm_compute in H1. injection H1 as _ <-.
  vm_compute in H2. discriminate H2.
Qed.

(** C3 (amended). For a ticker whose Open and Close prices are present (and
    Open non-zero) on every date, the first value of its open-to-close
    cumulative series is Close(d1)/Open(d1); a ticker with a single date
    gets the one-point series [Close(d1)/Open(d1)]. *)
Theorem open_to_close_first_value (d : table) (t : string) (c0 o0 : Qc) (cs os : list Qc) :
  wf_table d -> NoDup (t_index d) ->
  get_col d "Close" t = inr (map Some (c0 :: cs)) ->
  get_col d "Open" t = inr (map Some (o0 :: os)) ->
  Forall (fun o => o <> 0) (o0 :: os) ->
  exists ws f rest,
    calculate_returns d "open_to_close" = (ws, inr f) /\
    frame_col f t = Some (Some (c0 / o0) :: rest) /\
    (forall d1, t_index d = [d1] -> rest = []).
Proof.
  intros Hwf Hnd Hc Ho Hnz.
  destruct (o2c_column d t _ _ Hwf Hnd Hc Ho Hnz) as [ws [f [Hf [_ Hcol]]]].
  exists ws, f, (cumprod_from (1 * (c0 / o0)) (map Some (quotients cs os))).
  split; [exact Hf|]. split.
  - rewrite Hcol. unfold quotients. simpl. rewrite Qcmult_1_l. reflexivity.
  - intros d1 H1. pose proof (get_col_length _ _ _ _ Hwf Hc) as Lc.
    rewrite H1 in Lc. simpl in Lc. destruct cs; [reflexivity|simpl in Lc; lia].
Qed.

Lemma open_to_close_first_value_witness :
  exists ws f rest,
    calculate_returns tbl_one_day "open_to_close" = (ws, inr f) /\
    frame_col f "X" = Some (Some (Q2Qc (21 # 2) / Q2Qc 10) :: rest) /\
    (forall d1, t_index tbl_one_day = [d1] -> rest = []).
Proof.
  apply (open_to_close_first_value tbl_one_day "X" (Q2Qc (21 # 2)) (Q2Qc 10) [] []).
  - repeat constructor.
  - repeat constructor; simpl; intuition discriminate.
  - reflexivity.
  - reflexivity.
  - repeat constructor; apply Q2Qc_nonzero; unfold Qeq; simpl; discriminate.
Defined.

Lemma length_removelast_S {A} (l : list A) :
  List.length (removelast l) = pred (List.length l).
Proof.
  induction l as [|x [|y r] IH]; simpl in *; auto.
Qed.

Lemma NoDup_removelast {A} (l : list A) : NoDup l -> NoDup (removelast l).
Proof.
  destruct l as [|x r] eqn:E; [intros _; constructor|].
  intro H. rewrite (app_removelast_last x (l := x :: r)) in H by discriminate.
  apply NoDup_app_remove_r in H. exact H.
Qed.

Lemma ratio_minus_one_some a b :
  b <> 0 -> ratio_minus_one (Some a, Some b) = Some (a / b - 1).
Proof.
  intro Hb. unfold ratio_minus_one, vdiv; simpl. rewrite qeqb_false by exact Hb. reflexivity.
Qed.

Lemma c2o_series I xs cs :
  List.length I = S (List.length xs) -> List.length cs = S (List.length xs) ->
  Forall (fun c => c <> 0) cs ->
  dropna (combine I (map ratio_minus_one (combine (map Some xs ++ [None]) (map Some cs))))
  = combine (removelast I) (map (fun p => Some (fst p / snd p - 1)) (combine xs cs)).
Proof.
  revert I cs. induction xs as [|x xs IH]; intros I cs LI Lc Hnz.
  - destruct I as [|i [|i' I]]; try (simpl in LI; lia).
    destruct cs as [|c [|c' cs]]; try (simpl in Lc; lia). reflexivity.
  - destruct I as [|i I]; [simpl in LI; lia|].
    destruct cs as [|c cs]; [simpl in Lc; lia|].
    inversion Hnz as [|? ? Hc Hcs]; subst.
    simpl in LI, Lc.
    destruct I as [|i' I']; [simpl in LI; lia|].
    change (removelast (i :: i' :: I')) with (i :: removelast (i' :: I')).
    cbn -[ratio_minus_one]. rewrite (ratio_minus_one_some x c Hc). cbn -[ratio_minus_one].
    f_equal. apply (IH (i' :: I') cs); auto.
Qed.

Lemma c2o_daily I os cs :
  List.length os = List.length I -> List.length cs = List.length I ->
  Forall (fun c => c <> 0) cs ->
  dropna (combine I (map ratio_minus_one (combine (shift_m1 (map Some os)) (map Some cs))))
  = combine (removelast I) (map (fun q => Some (q - 1)) (quotients (tl os) cs)).
Proof.
  intros Lo Lc Hnz. destruct os as [|o os].
  - simpl. destruct I; [reflexivity|simpl in Lo; lia].
  - simpl shift_m1. simpl tl. unfold quotients. rewrite map_map.
    apply c2o_series; simpl in *; lia || assumption.
Qed.

Lemma map_Some_inj {A} (a b : list A) : map Some a = map Some b -> a = b.
Proof.
  revert b. induction a as [|x a IH]; intros [|y b] H; simpl in H; try discriminate; auto.
  injection H as -> H. f_equal. apply IH, H.
Qed.

Lemma length_quotients a b :
  List.length (quotients a b) = Nat.min (List.length a) (List.length b).
Proof. unfold quotients. rewrite length_map, length_combine. reflexivity. Qed.

Lemma c2o_dates d t s :
  wf_table d -> gap_free_open_close d ->
  daily_returns d "close_to_open" t = inr s -> map fst s = removelast (t_index d).
Proof.
  intros Hwf Hgf. unfold daily_returns; simpl.
  destruct (get_col d "Open" t) as [|op] eqn:Eo; [discriminate|].
  destruct (get_col d "Close" t) as [|cl] eqn:Ec; [discriminate|].
  intro H. injection H as <-.
  pose proof (get_col_length _ _ _ _ Hwf Eo) as Lo.
  pose proof (get_col_length _ _ _ _ Hwf Ec) as Lc.
  destruct (Hgf t op cl Eo Ec) as [os [cs [-> [-> Hnz]]]].
  rewrite length_map in Lo, Lc.
  rewrite c2o_daily by assumption. apply fst_combine.
  rewrite length_map, length_quotients, length_removelast_S.
  destruct os; simpl in *; lia.
Qed.

(** The close-to-open column of a ticker of a gap-free table. *)
Lemma c2o_column d t os cs :
  wf_table d -> NoDup (t_index d) -> gap_free_open_close d ->
  get_col d "Open" t = inr (map Some os) ->
  get_col d "Close" t = inr (map Some cs) ->
  Forall (fun c => c <> 0) cs ->
  exists ws f, calculate_returns d "close_to_open" = (ws, inr f) /\
    f_index f = removelast (t_index d) /\
    frame_col f t = Some (cumprod_from 1 (map Some (quotients (tl os) cs))).
Proof.
  intros Hwf Hnd Hgf Ho Hc Hnz.
  pose proof (get_col_length _ _ _ _ Hwf Ho) as Lo.
  pose proof (get_col_length _ _ _ _ Hwf Hc) as Lc.
  rewrite length_map in Lo, Lc.
  destruct (calc_loop_uniform d "close_to_open" (tickers_of d) empty_frame
              (removelast (t_index d))) as [f [Hf [Hcols Hidx]]].
  - right; left; reflexivity.
  - apply NoDup_removelast, Hnd.
  - intros u s _ Hs. eapply c2o_dates; eauto.
  - right; split; reflexivity.
  - set (s := combine (removelast (t_index d))
                (map (fun q => Some (q - 1)) (quotients (tl os) cs))).
    assert (Hs : daily_returns d "close_to_open" t = inr s).
    { unfold daily_returns; simpl. rewrite Ho, Hc. f_equal. apply c2o_daily; auto. }
    assert (Hcol : frame_col f t = Some (map snd (cumulative s))).
    { unfold frame_col. rewrite Hcols. simpl.
      rewrite (find_succ_col d _ _ t s); [reflexivity| |exact Hs].
      eapply get_col_in_tickers; exact Hc. }
    exists (warns d "close_to_open" (tickers_of d)), f.
    split; [exact Hf|]. split.
    + destruct Hidx as [Hidx|[_ Hnil]]; [exact Hidx|].
      unfold frame_col in Hcol. rewrite Hnil in Hcol. discriminate.
    + rewrite Hcol, cumulative_values. f_equal. f_equal.
      rewrite <- (map_map snd (vadd 1)). unfold s. rewrite snd_combine.
      * rewrite map_map. apply map_ext. intro q. simpl. f_equal. ring.
      * rewrite length_map, length_quotients, length_removelast_S.
        destruct os; simpl in *; lia.
Qed.

(** C2 (counterexample). Ticker A, processed first, has no Open price on
    date 2, so its close-to-open series only has date 2, and the returns
    DataFrame takes that one-date index; ticker B has gap-free prices on the
    3 dates but its column is aligned on that index and has 1 point, not 2. *)
Lemma close_to_open_claim_fails_after_gap :
  ~ close_to_open_claim tbl_gap "B".
Proof.
  intro H.
  destruct (H [Q2Qc 20; Q2Qc 22; Q2Qc 24] [Q2Qc 21; Q2Qc 23; Q2Qc 25])
    as [ws [f [col [H1 [H2 [H3 _]]]]]].
  - reflexivity.
  - reflexivity.
  - repeat constructor; apply Q2Qc_nonzero; unfold Qeq; simpl; discriminate.
  - vm_compute in H1. injection H1 as _ <-.
    vm_compute in H2. injection H2 as <-. simpl in H3. discriminate H3.
Qed.

(** C2 (amended). In a table with distinct dates d1..dn, one cell per date
    in every column, and where every ticker with Open and Close columns
    has a price on every date (and a non-zero Close),
    [calculate_returns] with ['close_to_open'] yields for each such ticker
    an (n-1)-point series on d1..d(n-1) (the last date, which has no next
    Open, is dropped) whose value at the i-th date is the running product of
    Open(d+1)/Close(d) over the dates d up to it. *)
Theorem close_to_open_cumulative_gap_free (d : table) (t : string) (os cs : list Qc) :
  wf_table d -> NoDup (t_index d) -> gap_free_open_close d ->
  get_col d "Open" t = inr (map Some os) ->
  get_col d "Close" t = inr (map Some cs) ->
  exists ws f col,
    calculate_returns d "close_to_open" = (ws, inr f) /\
    f_index f = removelast (t_index d) /\
    frame_col f t = Some col /\
    List.length col = pred (List.length (t_index d)) /\
    forall i, (i < pred (List.length (t_index d)))%nat ->
      nth i col None = Some (prod (firstn (S i) (quotients (tl os) cs))).
Proof.
  intros Hwf Hnd Hgf Ho Hc.
  assert (Hnz : Forall (fun c => c <> 0) cs).
  { destruct (Hgf t _ _ Ho Hc) as [os' [cs' [_ [E Hnz]]]].
    apply map_Some_inj in E. subst cs'. exact Hnz. }
  destruct (c2o_column d t os cs Hwf Hnd Hgf Ho Hc Hnz) as [ws [f [Hf [Hi Hcol]]]].
  pose proof (get_col_length _ _ _ _ Hwf Ho) as Lo.
  pose proof (get_col_length _ _ _ _ Hwf Hc) as Lc.
  rewrite length_map in Lo, Lc.
  assert (Lq : List.length (quotients (tl os) cs) = pred (List.length (t_index d)))
    by (rewrite length_quotients; destruct os; simpl in *; lia).
  exists ws, f, (cumprod_from 1 (map Some (quotients (tl os) cs))).
  repeat split; auto.
  - rewrite cumprod_from_length, length_map. exact Lq.
  - intros i Hi'. rewrite cumprod_from_nth by lia. f_equal. apply Qcmult_1_l.
Qed.

Lemma gap_free_tbl_x : gap_free_open_close tbl_x.
Proof.
  intros u op cl Ho Hc. destruct (String.eqb_spec u "X") as [->|Hne].
  2:{ apply get_col_In in Ho. simpl in Ho.
      destruct Ho as [E|[E|[]]]; inversion E; subst; contradiction. }
  vm_compute in Ho, Hc. injection Ho as <-. injection Hc as <-.
  exists [Q2Qc 10; Q2Qc 11], [Q2Qc (21 # 2); Q2Qc (23 # 2)].
  split; [reflexivity|]. split; [reflexivity|].
  repeat constructor; apply Q2Qc_nonzero; unfold Qeq; simpl; discriminate.
Qed.

Lemma close_to_open_cumulative_gap_free_witness :
  exists ws f col,
    calculate_returns tbl_x "close_to_open" = (ws, inr f) /\
    f_index f = removelast (t_index tbl_x) /\
    frame_col f "X" = Some col /\
    List.length col = pred (List.length (t_index tbl_x)) /\
    forall i, (i < pred (List.length (t_index tbl_x)))%nat ->
      nth i col None = Some (prod (firstn (S i)
        (quotients (tl [Q2Qc 10; Q2Qc 11]) [Q2Qc (21 # 2); Q2Qc (23 # 2)]))).
Proof.
  apply (close_to_open_cumulative_gap_free tbl_x "X" [Q2Qc 10; Q2Qc 11]
           [Q2Qc (21 # 2); Q2Qc (23 # 2)]).
  - repeat constructor.
  - repeat constructor; simpl; intuition discriminate.
  - exact gap_free_tbl_x.
  - reflexivity.
  - reflexivity.
Defined.

Lemma frame_get_col f t c : frame_get f t = inr c -> frame_col f t = Some c.
Proof. unfold frame_get. destruct (frame_col f t); congruence. Qed.

(** The traces and values of the renderer loop. *)
Lemma plot_loop_traces o c b inv ts trs vals :
  plot_loop o c b inv ts = inr (trs, vals) ->
  vals = List.concat (map tr_y trs) /\
  forall tr, In tr trs -> exists t s col,
    tr_name tr = TStrategy t s /\
    frame_col (frame_of s o c b) t = Some col /\
    tr_x tr = f_index (frame_of s o c b) /\
    tr_y tr = map (scale inv) col.
Proof.
  revert trs vals. induction ts as [|t r IH]; intros trs vals H; simpl in H.
  - injection H as <- <-. split; [reflexivity|intros tr []].
  - destruct (frame_get o t) as [|co] eqn:Eo; [discriminate|].
    destruct (frame_get c t) as [|cc] eqn:Ec; [discriminate|].
    destruct (frame_get b t) as [|cb] eqn:Eb; [discriminate|].
    destruct (plot_loop o c b inv r) as [|[trs' vals']] eqn:Er; [discriminate|].
    injection H as <- <-. destruct (IH trs' vals' eq_refl) as [Hv Htr].
    split.
    + simpl. rewrite Hv, !app_assoc. reflexivity.
    + intros tr [<-|[<-|[<-|Hin]]].
      * exists t, OpenToClose, co. simpl. auto using frame_get_col.
      * exists t, CloseToOpen, cc. simpl. auto using frame_get_col.
      * exists t, BuyAndHold, cb. simpl. auto using frame_get_col.
      * apply Htr, Hin.
Qed.

Lemma plot_ok o c b inv log fig :
  plot_investment_value o c b inv log = inr fig ->
  exists trs vals d0 rest,
    plot_loop o c b inv (map fst (f_cols o)) = inr (trs, vals) /\
    f_index o = d0 :: rest /\
    fig = mk_figure (trs ++ [mk_trace TInitial [d0; last (d0 :: rest) d0] [Some inv; Some inv]])
            (if log then Some (log_range (vals ++ [Some inv])) else None).
Proof.
  unfold plot_investment_value.
  destruct (plot_loop o c b inv (map fst (f_cols o))) as [|[trs vals]]; [discriminate|].
  destruct (f_index o) as [|d0 rest] eqn:E; [discriminate|].
  intro H. injection H as <-. exists trs, vals, d0, rest. auto.
Qed.

(** C4. In every figure the renderer produces, the trace of a ticker and a
    strategy plots, over that strategy's dates, the ticker's cumulative
    return at each date multiplied by the initial investment ([NaN] stays
    [NaN]). *)
Theorem plotted_value_is_return_times_investment o c b inv log fig :
  plot_investment_value o c b inv log = inr fig ->
  forall tr t s, In tr (fig_traces fig) -> tr_name tr = TStrategy t s ->
  exists col,
    frame_col (frame_of s o c b) t = Some col /\
    tr_x tr = f_index (frame_of s o c b) /\
    tr_y tr = map (fun v => option_map (fun r => r * inv) v) col.
Proof.
  intros H tr t s Hin Hname.
  destruct (plot_ok _ _ _ _ _ _ H) as [trs [vals [d0 [rest [Hl [_ ->]]]]]].
  destruct (plot_loop_traces _ _ _ _ _ _ _ Hl) as [_ Htr].
  simpl in Hin. apply in_app_or in Hin as [Hin|[<-|[]]]; [|discriminate].
  destruct (Htr tr Hin) as [t' [s' [col [Hn [Hc [Hx Hy]]]]]].
  rewrite Hname in Hn. injection Hn as <- <-.
  exists col. auto.
Qed.

Lemma plotted_value_is_return_times_investment_witness :
  exists fig,
    plot_investment_value fr_o fr_c fr_b (Q2Qc 100) false = inr fig /\
    forall tr t s, In tr (fig_traces fig) -> tr_name tr = TStrategy t s ->
    exists col,
      frame_col (frame_of s fr_o fr_c fr_b) t = Some col /\
      tr_x tr = f_index (frame_of s fr_o fr_c fr_b) /\
      tr_y tr = map (fun v => option_map (fun r => r * Q2Qc 100) v) col.
Proof.
  eexists. split.
  - vm_compute. reflexivity.
  - apply (plotted_value_is_return_times_investment fr_o fr_c fr_b (Q2Qc 100) false).
    vm_compute. reflexivity.
Defined.

(** The example of the spec: 100 invested, returns [1.0, 1.05], dollar
    values [100, 105]. *)
Example plotted_value_example :
  exists fig rest,
    plot_investment_value fr_o fr_c fr_b (Q2Qc 100) false = inr fig /\
    fig_traces fig = mk_trace (TStrategy "X" OpenToClose) [1; 2]%nat
                       [Some (Q2Qc 100); Some (Q2Qc 105)] :: rest.
Proof.
  do 2 eexists. split; [vm_compute; reflexivity|].
  vm_compute. do 5 f_equal. apply Qc_is_canon. reflexivity.
Qed.

Lemma daily_returns_keyerror d st t k :
  valid_strategy st -> daily_returns d st t = inl (KeyError k) ->
  exists fld, k = KTable fld t /\ get_col d fld t = inl (KeyError (KTable fld t)).
Proof.
  intros [ -> | [ -> | -> ]]; unfold daily_returns; simpl.
  - destruct (get_col_cases d "Close" t) as [[cl Ec]|Ec]; rewrite Ec;
      [|intro H; injection H as <-; eauto].
    destruct (get_col_cases d "Open" t) as [[op Eo]|Eo]; rewrite Eo;
      [discriminate|intro H; injection H as <-; eauto].
  - destruct (get_col_cases d "Open" t) as [[op Eo]|Eo]; rewrite Eo;
      [|intro H; injection H as <-; eauto].
    destruct (get_col_cases d "Close" t) as [[cl Ec]|Ec]; rewrite Ec;
      [discriminate|intro H; injection H as <-; eauto].
  - destruct (get_col_cases d "Adj Close" t) as [[ac Ea]|Ea]; rewrite Ea;
      [discriminate|intro H; injection H as <-; eauto].
Qed.

(** The columns and warnings of [calculate_returns] for a valid strategy. *)
Lemma calculate_returns_columns d st :
  valid_strategy st ->
  exists ws f,
    calculate_returns d st = (ws, inr f) /\
    (forall t, In t (map fst (f_cols f)) <-> In t (tickers_of d) /\ has_fields d st t) /\
    (forall e, In e ws -> exists t fld,
       e = EWarn t (KTable fld t) /\ In t (tickers_of d) /\
       get_col d fld t = inl (KeyError (KTable fld t)) /\ ~ has_fields d st t) /\
    (forall t, In t (tickers_of d) -> ~ has_fields d st t ->
       exists fld, In (EWarn t (KTable fld t)) ws /\
                   get_col d fld t = inl (KeyError (KTable fld t))).
Proof.
  intro Hv. destruct (calc_loop_names d st (tickers_of d) empty_frame Hv) as [f [Hf Hn]].
  exists (warns d st (tickers_of d)), f. split; [exact Hf|]. split; [|split].
  - intro t. rewrite Hn. simpl. rewrite filter_In, succeeds_has_fields by exact Hv. tauto.
  - intros e He. unfold warns in He. apply in_flat_map in He as [t [Ht He]].
    destruct (daily_returns d st t) as [[k| |]|s] eqn:E; try contradiction.
    destruct He as [<-|[]].
    destruct (daily_returns_keyerror d st t k Hv E) as [fld [-> Hg]].
    exists t, fld. repeat split; auto.
    rewrite <- succeeds_has_fields by exact Hv. unfold succeeds. rewrite E. discriminate.
  - intros t Ht Hh. rewrite <- succeeds_has_fields in Hh by exact Hv.
    unfold succeeds in Hh.
    destruct (daily_returns_cases d st t Hv) as [[s Hs]|[k Hk]].
    + rewrite Hs in Hh. contradiction Hh. reflexivity.
    + destruct (daily_returns_keyerror d st t k Hv Hk) as [fld [-> Hg]].
      exists fld. split; [|exact Hg].
      unfold warns. apply in_flat_map. exists t. split; [exact Ht|]. rewrite Hk. left. reflexivity.
Qed.

(** C5 (counterexample). Ticker B has Open and Close but no Adj Close: it
    is skipped with a warning for buy-and-hold only, stays in the
    open-to-close series, and the renderer then raises [KeyError] on the
    buy-and-hold column of B, so the run ends with an error message and no
    chart. *)
Lemma missing_adj_close_not_excluded_everywhere :
  (exists ws f, calculate_returns tbl_ab "open_to_close" = (ws, inr f) /\
                In "B"%string (map fst (f_cols f))) /\
  main_run "A,B" (Q2Qc 100) false (fetch_const tbl_ab) =
    [EFetch ["A"; "B"]%string; EWarn "B" (KTable "Adj Close" "B");
     EExc (KeyError (KFrame "B"))].
Proof.
  split.
  - do 2 eexists. split; [vm_compute; reflexivity|]. simpl. auto.
  - vm_compute. reflexivity.
Qed.

(** C5 (amended). For a valid strategy, a ticker that lacks a field the
    strategy requires is skipped with a warning naming the ticker and the
    missing (field, ticker) column, and is left out of that strategy's
    returns only; every ticker that has the fields is in them, and no other
    message is emitted. *)
Theorem missing_field_skipped_per_strategy d st :
  valid_strategy st ->
  exists ws f,
    calculate_returns d st = (ws, inr f) /\
    (forall t, In t (map fst (f_cols f)) <-> In t (tickers_of d) /\ has_fields d st t) /\
    (forall e, In e ws -> exists t fld,
       e = EWarn t (KTable fld t) /\ In t (tickers_of d) /\
       get_col d fld t = inl (KeyError (KTable fld t)) /\ ~ has_fields d st t) /\
    (forall t, In t (tickers_of d) -> ~ has_fields d st t ->
       exists fld, In (EWarn t (KTable fld t)) ws /\
                   get_col d fld t = inl (KeyError (KTable fld t))).
Proof. apply calculate_returns_columns. Qed.

Lemma missing_field_skipped_per_strategy_witness :
  exists ws f,
    calculate_returns tbl_ab "buy_and_hold" = (ws, inr f) /\
    (forall t, In t (map fst (f_cols f)) <-> In t (tickers_of tbl_ab) /\ has_fields tbl_ab "buy_and_hold" t) /\
    (forall e, In e ws -> exists t fld,
       e = EWarn t (KTable fld t) /\ In t (tickers_of tbl_ab) /\
       get_col tbl_ab fld t = inl (KeyError (KTable fld t)) /\ ~ has_fields tbl_ab "buy_and_hold" t) /\
    (forall t, In t (tickers_of tbl_ab) -> ~ has_fields tbl_ab "buy_and_hold" t ->
       exists fld, In (EWarn t (KTable fld t)) ws /\
                   get_col tbl_ab fld t = inl (KeyError (KTable fld t))).
Proof.
  apply (missing_field_skipped_per_strategy tbl_ab "buy_and_hold").
  right; right; reflexivity.
Defined.

(** C6. A ticker with Open and Close but no Adj Close column is skipped by
    ['buy_and_hold'] with a warning naming it and the missing column, the
    other tickers that have Adj Close are kept, and the ['open_to_close']
    and ['close_to_open'] results still include it. *)
Theorem missing_adj_close_independent d t :
  get_col d "Adj Close" t = inl (KeyError (KTable "Adj Close" t)) ->
  (exists op, get_col d "Open" t = inr op) ->
  (exists cl, get_col d "Close" t = inr cl) ->
  (exists ws f, calculate_returns d "buy_and_hold" = (ws, inr f) /\
     In (EWarn t (KTable "Adj Close" t)) ws /\
     ~ In t (map fst (f_cols f)) /\
     forall u, In u (tickers_of d) -> (exists ac, get_col d "Adj Close" u = inr ac) ->
       In u (map fst (f_cols f))) /\
  (exists ws f, calculate_returns d "open_to_close" = (ws, inr f) /\
     In t (map fst (f_cols f))) /\
  (exists ws f, calculate_returns d "close_to_open" = (ws, inr f) /\
     In t (map fst (f_cols f))).
Proof.
  intros Ha Ho Hc.
  assert (Ht : In t (tickers_of d))
    by (destruct Ho as [op Ho]; eapply get_col_in_tickers; exact Ho).
  split; [|split].
  - destruct (calculate_returns_columns d "buy_and_hold") as [ws [f [Hf [Hn [_ Hw]]]]];
      [right; right; reflexivity|].
    exists ws, f. split; [exact Hf|].
    assert (Hh : ~ has_fields d "buy_and_hold" t)
      by (unfold has_fields; simpl; intros [ac E]; congruence).
    split; [|split].
    + destruct (calc_loop_names d "buy_and_hold" (tickers_of d) empty_frame)
        as [f' [Hf' _]]; [right; right; reflexivity|].
      unfold calculate_returns in Hf. rewrite Hf' in Hf. injection Hf as <- _.
      unfold warns. apply in_flat_map. exists t. split; [exact Ht|].
      unfold daily_returns; simpl. rewrite Ha. left. reflexivity.
    + rewrite Hn. tauto.
    + intros u Hu Hac. apply Hn. split; [exact Hu|]. exact Hac.
  - destruct (calculate_returns_columns d "open_to_close") as [ws [f [Hf [Hn _]]]];
      [left; reflexivity|].
    exists ws, f. split; [exact Hf|]. apply Hn. split; [exact Ht|]. split; assumption.
  - destruct (calculate_returns_columns d "close_to_open") as [ws [f [Hf [Hn _]]]];
      [right; left; reflexivity|].
    exists ws, f. split; [exact Hf|]. apply Hn. split; [exact Ht|]. split; assumption.
Qed.

Lemma missing_adj_close_independent_witness :
  (exists ws f, calculate_returns tbl_ab "buy_and_hold" = (ws, inr f) /\
     In (EWarn "B" (KTable "Adj Close" "B")) ws /\
     ~ In "B"%string (map fst (f_cols f)) /\
     forall u, In u (tickers_of tbl_ab) -> (exists ac, get_col tbl_ab "Adj Close" u = inr ac) ->
       In u (map fst (f_cols f))) /\
  (exists ws f, calculate_returns tbl_ab "open_to_close" = (ws, inr f) /\
     In "B"%string (map fst (f_cols f))) /\
  (exists ws f, calculate_returns tbl_ab "close_to_open" = (ws, inr f) /\
     In "B"%string (map fst (f_cols f))).
Proof.
  apply (missing_adj_close_independent tbl_ab "B").
  - reflexivity.
  - eexists; reflexivity.
  - eexists; reflexivity.
Defined.

Lemma daily_returns_empty_index d st t s :
  t_index d = [] -> daily_returns d st t = inr s -> s = [].
Proof.
  intro Hi. unfold daily_returns. rewrite Hi.
  destruct (String.eqb st "open_to_close");
    [|destruct (String.eqb st "close_to_open");
      [|destruct (String.eqb st "buy_and_hold")]];
    repeat match goal with
           | |- context [get_col ?d ?f ?t] => destruct (get_col d f t)
           end;
    simpl; intro H; inversion H; reflexivity.
Qed.

Lemma calc_loop_empty_index d st ts acc :
  valid_strategy st -> t_index d = [] ->
  f_index acc = [] -> Forall (fun c => snd c = []) (f_cols acc) ->
  exists ws f, calc_loop d st ts acc = (ws, inr f) /\
    f_index f = [] /\ Forall (fun c => snd c = []) (f_cols f).
Proof.
  intros Hv Hi. revert acc. induction ts as [|t r IH]; intros acc Ha Hc; simpl.
  - exists [], acc. auto.
  - destruct (daily_returns_cases d st t Hv) as [[s Hs]|[k Hk]].
    + rewrite Hs. pose proof (daily_returns_empty_index d st t s Hi Hs) as ->.
      change (cumulative []) with (@nil (date * value)).
      rewrite set_col_keep by (right; reflexivity).
      apply IH; simpl; [exact Ha|]. rewrite Ha. apply Forall_app. split; auto.
    + rewrite Hk. destruct (IH acc Ha Hc) as [ws [f [Hf Hp]]].
      exists (EWarn t k :: ws), f. unfold bind, emit. simpl. rewrite Hf. auto.
Qed.

Lemma tickers_of_no_cols d : t_cols d = [] -> tickers_of d = [].
Proof. unfold tickers_of. intros ->. reflexivity. Qed.

Lemma py_split_comma_nonempty s : py_split_comma s <> [].
Proof.
  induction s as [|a r IH]; simpl; [discriminate|].
  destruct (Ascii.eqb a ","%char); [discriminate|].
  destruct (py_split_comma r); discriminate.
Qed.

Lemma parse_tickers_nonempty input : parse_tickers input <> [].
Proof.
  unfold parse_tickers.
  destruct (py_split_comma (py_upper input)) eqn:E;
    [exfalso; exact (py_split_comma_nonempty _ E)|].
  simpl. discriminate.
Qed.

Lemma plot_empty_index o c b inv log :
  f_index o = [] -> exists e, plot_investment_value o c b inv log = inl e.
Proof.
  intro Hi. unfold plot_investment_value.
  destruct (plot_loop o c b inv (map fst (f_cols o))) as [e|[trs vals]]; [eauto|].
  rewrite Hi. eauto.
Qed.

Lemma main_run_no_data input inv log fetch d :
  fetch (parse_tickers input) = inr d -> table_empty d = true ->
  main_run input inv log fetch = [EFetch (parse_tickers input); ENoData].
Proof.
  intros Hf He. unfold main_run.
  pose proof (parse_tickers_nonempty input) as Hn.
  destruct (parse_tickers input) as [|t r] eqn:E; [contradiction Hn; reflexivity|].
  unfold run_backtest, bind, emit, lift. rewrite Hf. simpl. rewrite He. reflexivity.
Qed.

(** C7 (counterexample). The empty price table gives the empty DataFrame
    for each strategy, and the renderer raises [IndexError] on it
    ([returns_open_to_close.index[0]]). *)
Lemma empty_table_renderer_raises :
  calculate_returns tbl_empty "open_to_close" = ([], inr empty_frame) /\
  calculate_returns tbl_empty "close_to_open" = ([], inr empty_frame) /\
  calculate_returns tbl_empty "buy_and_hold" = ([], inr empty_frame) /\
  plot_investment_value empty_frame empty_frame empty_frame (Q2Qc 100) false = inl IndexError.
Proof. vm_compute. repeat split. Qed.

(** C7 (amended). For an empty price table, [calculate_returns] yields for
    each strategy a returns DataFrame with an empty index whose columns (if
    any) are empty; the renderer raises an exception on any returns
    DataFrame with an empty index; [main] never reaches either: after
    fetching it reports that no data was found and stops. *)
Theorem empty_table_empty_returns_guarded d st :
  table_empty d = true -> valid_strategy st ->
  (exists ws f, calculate_returns d st = (ws, inr f) /\
     f_index f = [] /\ Forall (fun c => snd c = []) (f_cols f)) /\
  (forall o c b inv log, f_index o = [] ->
     exists e, plot_investment_value o c b inv log = inl e) /\
  (forall input inv log,
     main_run input inv log (fetch_const d) = [EFetch (parse_tickers input); ENoData]).
Proof.
  intros He Hv. split; [|split].
  - unfold table_empty in He. unfold calculate_returns.
    destruct (t_index d) as [|x xs] eqn:Hi.
    + apply calc_loop_empty_index; auto.
    + destruct (t_cols d) eqn:Hc; [|discriminate].
      rewrite (tickers_of_no_cols d Hc). exists [], empty_frame. simpl. auto.
  - intros o c b inv log. apply plot_empty_index.
  - intros input inv log. apply (main_run_no_data _ _ _ _ d); [reflexivity|exact He].
Qed.

Lemma empty_table_empty_returns_guarded_witness :
  (exists ws f, calculate_returns tbl_empty "close_to_open" = (ws, inr f) /\
     f_index f = [] /\ Forall (fun c => snd c = []) (f_cols f)) /\
  (forall o c b inv log, f_index o = [] ->
     exists e, plot_investment_value o c b inv log = inl e) /\
  (forall input inv log,
     main_run input inv log (fetch_const tbl_empty) = [EFetch (parse_tickers input); ENoData]).
Proof.
  apply (empty_table_empty_returns_guarded tbl_empty "close_to_open").
  - reflexivity.
  - right; left; reflexivity.
Defined.

Lemma daily_returns_invalid d st t :
  ~ valid_strategy st -> daily_returns d st t = inl (ValueError "Invalid strategy").
Proof.
  intro Hv. unfold daily_returns.
  destruct (String.eqb_spec st "open_to_close"); [contradiction Hv; left; assumption|].
  destruct (String.eqb_spec st "close_to_open"); [contradiction Hv; right; left; assumption|].
  destruct (String.eqb_spec st "buy_and_hold"); [contradiction Hv; right; right; assumption|].
  reflexivity.
Qed.

(** C8. On a price table with at least one ticker, a strategy other than
    the three known ones makes [calculate_returns] raise
    [ValueError("Invalid strategy")] on the first ticker, with no warning
    emitted: the per-ticker [KeyError] handler does not absorb it. *)
Theorem invalid_strategy_fails_fast d st :
  tickers_of d <> [] -> ~ valid_strategy st ->
  calculate_returns d st = ([], inl (ValueError "Invalid strategy")).
Proof.
  intros Ht Hv. unfold calculate_returns.
  destruct (tickers_of d) as [|t r]; [contradiction Ht; reflexivity|].
  cbn [calc_loop]. rewrite daily_returns_invalid by exact Hv. reflexivity.
Qed.

Lemma invalid_strategy_fails_fast_witness :
  tickers_of tbl_x <> [] /\ ~ valid_strategy "close_to_close" /\
  calculate_returns tbl_x "close_to_close" = ([], inl (ValueError "Invalid strategy")).
Proof.
  assert (Ht : tickers_of tbl_x <> []) by (vm_compute; discriminate).
  assert (Hv : ~ valid_strategy "close_to_close")
    by (intros [H|[H|H]]; discriminate).
  split; [exact Ht|split; [exact Hv|]].
  apply (invalid_strategy_fails_fast tbl_x "close_to_close"); assumption.
Defined.

Lemma all_some_map l xs : all_some l = Some xs -> l = map Some xs.
Proof.
  revert xs. induction l as [|[x|] r IH]; intros xs H; simpl in H.
  - injection H as <-. reflexivity.
  - destruct (all_some r) as [ys|] eqn:E; [|discriminate].
    injection H as <-. simpl. f_equal. apply IH. reflexivity.
  - discriminate.
Qed.

Lemma all_some_of_map xs : all_some (map Some xs) = Some xs.
Proof. induction xs as [|x r IH]; simpl; rewrite ?IH; reflexivity. Qed.

Lemma map_Some_app_inv {A} (l1 l2 : list (option A)) (xs : list A) :
  l1 ++ l2 = map Some xs ->
  exists a b, xs = a ++ b /\ l1 = map Some a /\ l2 = map Some b.
Proof.
  revert xs. induction l1 as [|v r IH]; intros xs H; simpl in H.
  - exists [], xs. auto.
  - destruct xs as [|x xs]; [discriminate|]. simpl in H. injection H as Hv Hr.
    destruct (IH xs Hr) as [a [b [-> [Ha Hb]]]].
    exists (x :: a), b. subst. auto.
Qed.

Lemma positives_map xs : positives (map Some xs) = filter (qltb 0) xs.
Proof.
  induction xs as [|x r IH]; [reflexivity|].
  unfold positives in *. simpl. rewrite IH. destruct (qltb 0 x); reflexivity.
Qed.

Lemma qmax_ge_l a b : a <= qmax a b.
Proof.
  unfold qmax. destruct (qltb a b) eqn:E; [apply Qclt_le_weak, qltb_true, E|apply Qcle_refl].
Qed.

Lemma qmax_ge_r a b : b <= qmax a b.
Proof.
  unfold qmax. destruct (qltb a b) eqn:E; [apply Qcle_refl|].
  apply Qcnot_lt_le. intro H. apply qltb_true in H. congruence.
Qed.

Lemma qmin_le_l a b : qmin a b <= a.
Proof.
  unfold qmin. destruct (qltb b a) eqn:E; [apply Qclt_le_weak, qltb_true, E|apply Qcle_refl].
Qed.

Lemma qmin_le_r a b : qmin a b <= b.
Proof.
  unfold qmin. destruct (qltb b a) eqn:E; [apply Qcle_refl|].
  apply Qcnot_lt_le. intro H. apply qltb_true in H. congruence.
Qed.

Lemma fold_qmax_is_max r x : is_max (x :: r) (fold_left qmax r x).
Proof.
  revert x. induction r as [|y r IH]; intro x; simpl.
  - split; [left; reflexivity|]. constructor; [apply Qcle_refl|constructor].
  - destruct (IH (qmax x y)) as [Hin Hall]. inversion Hall as [|? ? Hm Hr]; subst.
    split.
    + destruct Hin as [Hin|Hin]; [|right; right; exact Hin].
      rewrite <- Hin. unfold qmax. destruct (qltb x y); [right; left|left]; reflexivity.
    + constructor; [eapply Qcle_trans; [apply qmax_ge_l|exact Hm]|].
      constructor; [eapply Qcle_trans; [apply qmax_ge_r|exact Hm]|exact Hr].
Qed.

Lemma fold_qmin_is_min r x : is_min (x :: r) (fold_left qmin r x).
Proof.
  revert x. induction r as [|y r IH]; intro x; simpl.
  - split; [left; reflexivity|]. constructor; [apply Qcle_refl|constructor].
  - destruct (IH (qmin x y)) as [Hin Hall]. inversion Hall as [|? ? Hm Hr]; subst.
    split.
    + destruct Hin as [Hin|Hin]; [|right; right; exact Hin].
      rewrite <- Hin. unfold qmin. destruct (qltb y x); [right; left|left]; reflexivity.
    + constructor; [eapply Qcle_trans; [exact Hm|apply qmin_le_l]|].
      constructor; [eapply Qcle_trans; [exact Hm|apply qmin_le_r]|exact Hr].
Qed.

Lemma is_max_same l1 l2 m :
  (forall y, In y l1 <-> In y l2) -> is_max l1 m -> is_max l2 m.
Proof.
  intros Hs [Hin Hall]. split; [apply Hs, Hin|].
  rewrite Forall_forall in *. intros y Hy. apply Hall, Hs, Hy.
Qed.

Lemma is_min_same l1 l2 m :
  (forall y, In y l1 <-> In y l2) -> is_min l1 m -> is_min l2 m.
Proof.
  intros Hs [Hin Hall]. split; [apply Hs, Hin|].
  rewrite Forall_forall in *. intros y Hy. apply Hall, Hs, Hy.
Qed.

Lemma in_dup_last (ys : list Qc) v y : In y (ys ++ [v; v]) <-> In y (ys ++ [v]).
Proof. rewrite !in_app_iff. simpl. tauto. Qed.

(** The range computed by [log_range] on values that are all numbers. *)
Lemma log_range_numbers z zr :
  log_range (map Some (z :: zr)) =
  let mx := fold_left qmax zr z in
  let mn := match filter (qltb 0) (z :: zr) with
            | [] => tenth
            | y :: r => fold_left qmin r y
            end in
  (if qltb 0 (mn - tenth * (mx - mn)) then mn - tenth * (mx - mn) else tenth,
   Some (mx + tenth * (mx - mn))).
Proof.
  unfold log_range, min_positive, np_max. rewrite positives_map, all_some_of_map.
  reflexivity.
Qed.

(** C9. With the logarithmic scale, when every drawn value (the strategy
    traces and the initial-investment line) is a number, the range holds
    the arguments of the two [log10] calls: with [mx] the largest drawn
    value, [mn] the smallest positive one ([0.1] if none is positive) and
    [pad = 0.1 * (mx - mn)], the upper argument is [mx + pad] and the lower
    one is [mn - pad] when that is positive, and [0.1] otherwise. *)
Theorem log_scale_range o c b inv fig xs :
  plot_investment_value o c b inv true = inr fig ->
  all_some (drawn_values fig) = Some xs ->
  exists mn mx,
    is_max xs mx /\
    ((exists x, In x xs /\ 0 < x) -> is_min (filter (qltb 0) xs) mn) /\
    (~ (exists x, In x xs /\ 0 < x) -> mn = tenth) /\
    fig_yrange fig =
      Some (if qltb 0 (mn - tenth * (mx - mn)) then mn - tenth * (mx - mn) else tenth,
            Some (mx + tenth * (mx - mn))).
Proof.
  intros Hp Ha.
  destruct (plot_ok o c b inv true fig Hp) as [trs [vals [d0 [rest [Hl [_ ->]]]]]].
  destruct (plot_loop_traces o c b inv _ trs vals Hl) as [Hv _].
  unfold drawn_values in Ha. simpl in Ha.
  rewrite map_app, concat_app, <- Hv in Ha. simpl in Ha.
  apply all_some_map in Ha.
  destruct (map_Some_app_inv _ _ _ Ha) as [ys [b2 [-> [Hys Hb2]]]].
  destruct b2 as [|x1 [|x2 [|x3 b2]]]; try discriminate.
  injection Hb2 as <- <-.
  assert (Hz : vals ++ [Some inv] = map Some (ys ++ [inv]))
    by (rewrite map_app, Hys; reflexivity).
  destruct (ys ++ [inv]) as [|z zr] eqn:Ez; [destruct ys; discriminate|].
  assert (Hsame : forall y, In y (z :: zr) <-> In y (ys ++ [inv; inv]))
    by (intro y; rewrite <- Ez; symmetry; apply in_dup_last).
  set (mx := fold_left qmax zr z).
  set (mn := match filter (qltb 0) (z :: zr) with
             | [] => tenth
             | y :: r => fold_left qmin r y
             end).
  exists mn, mx. split; [|split; [|split]].
  - apply (is_max_same (z :: zr)); [exact Hsame|apply fold_qmax_is_max].
  - intros [x [Hx Hpos]].
    assert (Hf : forall y, In y (filter (qltb 0) (z :: zr)) <->
                           In y (filter (qltb 0) (ys ++ [inv; inv])))
      by (intro y; rewrite !filter_In, Hsame; tauto).
    apply (is_min_same (filter (qltb 0) (z :: zr))); [exact Hf|].
    subst mn. destruct (filter (qltb 0) (z :: zr)) as [|y r] eqn:E.
    + exfalso. assert (Hin : In x (filter (qltb 0) (z :: zr)))
        by (apply filter_In; split; [apply Hsame, Hx|apply qltb_true, Hpos]).
      rewrite E in Hin. destruct Hin.
    + apply fold_qmin_is_min.
  - intro Hno. subst mn. destruct (filter (qltb 0) (z :: zr)) as [|y r] eqn:E; [reflexivity|].
    exfalso. apply Hno. assert (Hin : In y (filter (qltb 0) (z :: zr))) by (rewrite E; left; reflexivity).
    apply filter_In in Hin as [Hy Hpos]. exists y. split; [apply Hsame, Hy|apply qltb_true, Hpos].
  - simpl. rewrite Hz, log_range_numbers. reflexivity.
Qed.

Lemma log_scale_range_witness :
  exists fig xs,
    plot_investment_value (fr_one (1 # 2)) (fr_one 1) (fr_one (3 # 2)) (Q2Qc 100) true = inr fig /\
    all_some (drawn_values fig) = Some xs /\
    exists mn mx,
      is_max xs mx /\
      ((exists x, In x xs /\ 0 < x) -> is_min (filter (qltb 0) xs) mn) /\
      (~ (exists x, In x xs /\ 0 < x) -> mn = tenth) /\
      fig_yrange fig =
        Some (if qltb 0 (mn - tenth * (mx - mn)) then mn - tenth * (mx - mn) else tenth,
              Some (mx + tenth * (mx - mn))).
Proof.
  pose (p := plot_investment_value (fr_one (1 # 2)) (fr_one 1) (fr_one (3 # 2)) (Q2Qc 100) true).
  pose (fig := match p with inr f => f | inl _ => mk_figure [] None end).
  pose (xs := match all_some (drawn_values fig) with Some l => l | None => [] end).
  assert (Hp : p = inr fig) by (vm_compute; reflexivity).
  assert (Ha : all_some (drawn_values fig) = Some xs) by (vm_compute; reflexivity).
  exists fig, xs. split; [exact Hp|]. split; [exact Ha|].
  exact (log_scale_range _ _ _ _ fig xs Hp Ha).
Defined.

(** The values of the spec's example: drawn values 50, 100 and 150 with an
    initial investment of 100 give the [log10] arguments 40 and 160. *)
Example log_scale_range_example :
  match plot_investment_value (fr_one (1 # 2)) (fr_one 1) (fr_one (3 # 2)) (Q2Qc 100) true with
  | inr fig =>
      map (option_map this) (drawn_values fig) = [Some 50; Some 100; Some 150; Some 100; Some 100]%Q /\
      option_map (fun r => (this (fst r), option_map this (snd r))) (fig_yrange fig)
        = Some (40, Some 160)%Q
  | inl _ => False
  end.
Proof. vm_compute. split; reflexivity. Qed.

(** C9 (counterexample). Drawn values 1, 1, 1 and the initial investment
    100: the smallest positive value is 1, the largest 100, the padding
    9.9, and [min - padding = -8.9] is not positive, so the lower [log10]
    argument is the floor 0.1, not [min - padding]. *)
Lemma log_range_lower_floor_applies :
  match plot_investment_value (fr_one (1 # 100)) (fr_one (1 # 100)) (fr_one (1 # 100))
          (Q2Qc 100) true with
  | inr fig =>
      map (option_map this) (drawn_values fig) = [Some 1; Some 1; Some 1; Some 100; Some 100]%Q /\
      option_map (fun r => this (fst r)) (fig_yrange fig) = Some (1 # 10)%Q /\
      ~ (1 # 10 == 1 - (1 # 10) * (100 - 1))%Q
  | inl _ => False
  end.
Proof. vm_compute. split; [reflexivity|split; [reflexivity|discriminate]]. Qed.

Lemma bind_emit {B} e (k : unit -> M B) :
  bind (emit e) k = (e :: fst (k tt), snd (k tt)).
Proof. unfold bind, emit. destruct (k tt). reflexivity. Qed.

Lemma main_run_fetches_first input inv log fetch :
  exists rest, main_run input inv log fetch = EFetch (parse_tickers input) :: rest.
Proof.
  unfold main_run. pose proof (parse_tickers_nonempty input) as Hn.
  destruct (parse_tickers input) as [|t r]; [contradiction Hn; reflexivity|].
  unfold run_backtest. rewrite bind_emit. eexists. reflexivity.
Qed.

Lemma upper_char_space_or_comma a : space_or_comma a = true -> upper_char a = a.
Proof.
  destruct a as [[] [] [] [] [] [] [] []]; vm_compute;
    first [reflexivity | discriminate].
Qed.

Lemma py_upper_space_or_comma s :
  Forall (fun a => space_or_comma a = true) (list_ascii_of_string s) -> py_upper s = s.
Proof.
  intro H. unfold py_upper. rewrite map_ext_Forall with (g := fun a => a).
  - rewrite map_id. apply string_of_list_ascii_of_string.
  - eapply Forall_impl; [|exact H]. intros a Ha. apply upper_char_space_or_comma, Ha.
Qed.

Lemma py_split_comma_spaces s :
  Forall (fun a => space_or_comma a = true) (list_ascii_of_string s) ->
  Forall (fun x => Forall (fun a => is_space a = true) (list_ascii_of_string x))
         (py_split_comma s).
Proof.
  induction s as [|a r IH]; intro H; simpl in *.
  - repeat constructor.
  - inversion H as [|? ? Ha Hr]; subst.
    destruct (Ascii.eqb a ","%char) eqn:Ec.
    + constructor; [constructor|apply IH, Hr].
    + assert (Hs : is_space a = true)
        by (unfold space_or_comma in Ha; rewrite Ec, orb_false_r in Ha; exact Ha).
      specialize (IH Hr). destruct (py_split_comma r) as [|h tl].
      * repeat constructor. exact Hs.
      * inversion IH; subst. constructor; [constructor; assumption|assumption].
Qed.

Lemma drop_spaces_all l : Forall (fun a => is_space a = true) l -> drop_spaces l = [].
Proof. induction 1 as [|a r Ha _ IH]; simpl; [reflexivity|]. rewrite Ha. exact IH. Qed.

Lemma py_strip_spaces x :
  Forall (fun a => is_space a = true) (list_ascii_of_string x) -> py_strip x = EmptyString.
Proof. intro H. unfold py_strip. rewrite (drop_spaces_all _ H). reflexivity. Qed.

Lemma Forall_firstn_keep {A} (P : A -> Prop) n l : Forall P l -> Forall P (firstn n l).
Proof.
  revert l. induction n as [|n IH]; intros l H; simpl; [constructor|].
  destruct H; constructor; auto.
Qed.

(** C10. Splitting on commas always yields at least one piece, so the
    parsed ticker list is never empty and [main] never takes the "enter at
    least one symbol" branch: it always goes on to fetch. An input made
    only of whitespace and commas is fetched with empty-string symbols. *)
Theorem ticker_list_never_empty input :
  parse_tickers input <> [] /\
  (forall inv log fetch,
     exists rest, main_run input inv log fetch = EFetch (parse_tickers input) :: rest) /\
  (Forall (fun a => space_or_comma a = true) (list_ascii_of_string input) ->
   Forall (fun x => x = EmptyString) (parse_tickers input)).
Proof.
  split; [apply parse_tickers_nonempty|split; [apply main_run_fetches_first|]].
  intro H. unfold parse_tickers. rewrite py_upper_space_or_comma by exact H.
  apply Forall_firstn_keep, Forall_map.
  eapply Forall_impl; [|apply py_split_comma_spaces, H].
  intros x Hx. apply py_strip_spaces, Hx.
Qed.

Lemma ticker_list_never_empty_witness :
  Forall (fun a => space_or_comma a = true) (list_ascii_of_string "  , ") /\
  parse_tickers "  , " <> [] /\
  Forall (fun x => x = EmptyString) (parse_tickers "  , ").
Proof.
  assert (H : Forall (fun a => space_or_comma a = true) (list_ascii_of_string "  , "))
    by (vm_compute; repeat constructor).
  destruct (ticker_list_never_empty "  , ") as [Hn [_ Hs]].
  split; [exact H|split; [exact Hn|exact (Hs H)]].
Defined.

(** The whitespace-and-commas input above is fetched as two empty symbols. *)
Example blank_input_fetched :
  main_run "  , " (Q2Qc 100) false (fetch_const tbl_empty) =
    [EFetch [""; ""]%string; ENoData].
Proof. vm_compute. reflexivity. Qed.

(** * Further properties of the code *)

(** ** The returns DataFrame built by [calculate_returns] *)

(** One step of the ticker loop that ends without an exception. *)
Lemma calc_loop_cons_inr d st t r acc ws f :
  calc_loop d st (t :: r) acc = (ws, inr f) ->
  (exists k ws', daily_returns d st t = inl (KeyError k) /\
                 calc_loop d st r acc = (ws', inr f)) \/
  (exists s ws', daily_returns d st t = inr s /\
                 calc_loop d st r (set_col acc t (cumulative s)) = (ws', inr f)).
Proof.
  cbn [calc_loop]. destruct (daily_returns d st t) as [[k| |]|s] eqn:E; intro H.
  - left. exists k, (fst (calc_loop d st r acc)). split; [reflexivity|].
    rewrite bind_emit in H. injection H as _ H.
    destruct (calc_loop d st r acc). simpl in *. subst. reflexivity.
  - discriminate.
  - discriminate.
  - right. exists s, ws. auto.
Qed.

Lemma cumulative_nil s : cumulative s = [] -> s = [].
Proof.
  intro H. pose proof (cumulative_dates s) as E. rewrite H in E.
  destruct s; [reflexivity|discriminate].
Qed.

Lemma set_col_aligned d st f t s :
  aligned d st f -> daily_returns d st t = inr s -> aligned d st (set_col f t (cumulative s)).
Proof.
  unfold aligned. intros H Hs.
  destruct (f_index f) as [|x xs] eqn:Ei.
  - destruct (cumulative s) as [|p s'] eqn:Ec.
    + rewrite set_col_keep by (right; reflexivity). cbn [f_index f_cols].
      rewrite Ei. apply Forall_app. split.
      * eapply Forall_impl; [|exact H]. intros c [u [Hu [Hc He]]]. exists u. auto.
      * constructor; [|constructor]. exists s. simpl. split; [exact Hs|].
        split; [reflexivity|intros _; apply cumulative_nil, Ec].
    + rewrite set_col_first by exact Ei.
      cbn [f_index f_cols]. apply Forall_app. split.
      * apply Forall_map. eapply Forall_impl; [|exact H].
        intros c [u [Hu [Hc He]]]. exists u. simpl. split; [exact Hu|].
        rewrite (He eq_refl). split; [reflexivity|discriminate].
      * constructor; [|constructor]. exists s. simpl. rewrite Ec.
        split; [exact Hs|]. split; [reflexivity|discriminate].
  - rewrite set_col_keep by (left; rewrite Ei; discriminate). cbn [f_index f_cols].
    rewrite Ei. apply Forall_app. split.
    + eapply Forall_impl; [|exact H]. intros c [u [Hu [Hc He]]]. exists u. auto.
    + constructor; [|constructor]. exists s. simpl. split; [exact Hs|].
      split; [reflexivity|discriminate].
Qed.

Lemma calc_loop_aligned d st ts acc ws f :
  aligned d st acc -> calc_loop d st ts acc = (ws, inr f) -> aligned d st f.
Proof.
  revert acc ws. induction ts as [|t r IH]; intros acc ws Ha H.
  - simpl in H. injection H as _ <-. exact Ha.
  - destruct (calc_loop_cons_inr d st t r acc ws f H) as [[k [ws' [_ Hr]]]|[s [ws' [Hs Hr]]]].
    + exact (IH acc ws' Ha Hr).
    + exact (IH _ ws' (set_col_aligned d st acc t s Ha Hs) Hr).
Qed.

Lemma calc_loop_index_kept d st ts acc ws f :
  f_index acc <> [] -> calc_loop d st ts acc = (ws, inr f) -> f_index f = f_index acc.
Proof.
  revert acc ws. induction ts as [|t r IH]; intros acc ws Ha H.
  - simpl in H. injection H as _ <-. reflexivity.
  - destruct (calc_loop_cons_inr d st t r acc ws f H) as [[k [ws' [_ Hr]]]|[s [ws' [_ Hr]]]].
    + exact (IH acc ws' Ha Hr).
    + rewrite set_col_keep in Hr by (left; exact Ha).
      exact (IH (mk_frame (f_index acc) _) ws' Ha Hr).
Qed.

Lemma calc_loop_index_first d st ts1 t s ts2 acc ws f :
  f_index acc = [] ->
  (forall u s', In u ts1 -> daily_returns d st u = inr s' -> s' = []) ->
  daily_returns d st t = inr s -> s <> [] ->
  calc_loop d st (ts1 ++ t :: ts2) acc = (ws, inr f) ->
  f_index f = map fst s.
Proof.
  revert acc ws. induction ts1 as [|u r IH]; intros acc ws Ha Hpre Hs Hne H.
  - simpl in H. destruct (calc_loop_cons_inr d st t ts2 acc ws f H)
      as [[k [ws' [Hk _]]]|[s' [ws' [Hs' Hr]]]]; [congruence|].
    rewrite Hs in Hs'. injection Hs' as <-.
    destruct (cumulative s) as [|p c] eqn:Ec; [contradiction Hne; apply cumulative_nil, Ec|].
    rewrite set_col_first in Hr by exact Ha.
    apply calc_loop_index_kept in Hr; [|cbn [f_index map]; discriminate].
    rewrite Hr. cbn [f_index]. rewrite <- Ec. apply cumulative_dates.
  - simpl in H. destruct (calc_loop_cons_inr d st u (r ++ t :: ts2) acc ws f H)
      as [[k [ws' [_ Hr]]]|[s' [ws' [Hs' Hr]]]].
    + eapply IH; eauto. intros v sv Hv. apply Hpre. right; exact Hv.
    + assert (s' = []) by (apply (Hpre u); [left; reflexivity|exact Hs']). subst s'.
      change (cumulative []) with (@nil (date * value)) in Hr.
      rewrite set_col_keep in Hr by (right; reflexivity).
      eapply IH; [| |exact Hs|exact Hne|exact Hr]; [exact Ha|].
      intros v sv Hv. apply Hpre. right; exact Hv.
Qed.

Lemma NoDup_unique_aux seen l : NoDup (unique_aux seen l).
Proof.
  revert seen. induction l as [|x r IH]; intro seen; simpl; [constructor|].
  destruct (existsb (String.eqb x) seen); [apply IH|].
  constructor; [|apply IH]. rewrite in_unique_aux. intros [_ N]. apply N. left; reflexivity.
Qed.

Lemma warns_length d st ts :
  valid_strategy st ->
  (List.length (warns d st ts) + List.length (filter (succeeds d st) ts))%nat = List.length ts.
Proof.
  intro Hv. induction ts as [|t r IH]; [reflexivity|].
  unfold warns, succeeds in *. simpl.
  destruct (daily_returns_cases d st t Hv) as [[s Hs]|[k Hk]]; rewrite ?Hs, ?Hk; simpl; lia.
Qed.

(** X2. Every column of a returns DataFrame holds, at each date of the
    DataFrame's index, the cumulative return of its ticker at that date, or
    [NaN] when the ticker's own series has no value at that date
    ([returns[ticker] = s] aligns [s] on the index). *)
Theorem returns_column_aligned d st ws f t col :
  calculate_returns d st = (ws, inr f) -> frame_col f t = Some col ->
  exists s, daily_returns d st t = inr s /\
            col = map (fun x => lookup_date x (cumulative s)) (f_index f).
Proof.
  intros H Hc. assert (Ha : aligned d st f)
    by (eapply calc_loop_aligned; [|exact H]; unfold aligned; simpl; constructor).
  unfold frame_col in Hc.
  destruct (find (fun c => String.eqb (fst c) t) (f_cols f)) as [c|] eqn:E; [|discriminate].
  injection Hc as <-. apply find_some in E as [Hin Ht]. apply String.eqb_eq in Ht.
  unfold aligned in Ha. rewrite Forall_forall in Ha.
  destruct (Ha c Hin) as [s [Hs [Hc _]]]. subst t. exists s. auto.
Qed.

Lemma returns_column_aligned_witness :
  exists ws f col, calculate_returns tbl_gap "close_to_open" = (ws, inr f) /\
    frame_col f "B" = Some col /\
    exists s, daily_returns tbl_gap "close_to_open" "B" = inr s /\
              col = map (fun x => lookup_date x (cumulative s)) (f_index f).
Proof.
  pose (r := calculate_returns tbl_gap "close_to_open").
  pose (f := match snd r with inr f => f | inl _ => empty_frame end).
  pose (col := match frame_col f "B" with Some c => c | None => [] end).
  assert (H : calculate_returns tbl_gap "close_to_open" = (fst r, inr f))
    by (vm_compute; reflexivity).
  assert (Hc : frame_col f "B" = Some col) by (vm_compute; reflexivity).
  exists (fst r), f, col. split; [exact H|]. split; [exact Hc|].
  exact (returns_column_aligned _ _ _ _ _ _ H Hc).
Defined.

(** X3. The date index of a returns DataFrame is the list of dates of the
    first ticker, in table order, whose daily-return series is not empty:
    tickers skipped before it and tickers with an empty series leave no
    trace in the index, and later tickers never change it. *)
Theorem returns_index_from_first_series d st ts1 t s ts2 ws f :
  tickers_of d = ts1 ++ t :: ts2 ->
  (forall u s', In u ts1 -> daily_returns d st u = inr s' -> s' = []) ->
  daily_returns d st t = inr s -> s <> [] ->
  calculate_returns d st = (ws, inr f) ->
  f_index f = map fst s.
Proof.
  intros Ht Hpre Hs Hne H. unfold calculate_returns in H. rewrite Ht in H.
  exact (calc_loop_index_first d st ts1 t s ts2 empty_frame ws f eq_refl Hpre Hs Hne H).
Qed.

Lemma returns_index_from_first_series_witness :
  exists s ws f,
    daily_returns tbl_gap "close_to_open" "A" = inr s /\
    calculate_returns tbl_gap "close_to_open" = (ws, inr f) /\
    f_index f = map fst s /\ f_index f = [2%nat].
Proof.
  pose (s := match daily_returns tbl_gap "close_to_open" "A" with inr s => s | inl _ => [] end).
  pose (r := calculate_returns tbl_gap "close_to_open").
  pose (f := match snd r with inr f => f | inl _ => empty_frame end).
  assert (Hs : daily_returns tbl_gap "close_to_open" "A" = inr s) by (vm_compute; reflexivity).
  assert (H : calculate_returns tbl_gap "close_to_open" = (fst r, inr f))
    by (vm_compute; reflexivity).
  exists s, (fst r), f. split; [exact Hs|]. split; [exact H|].
  assert (Hi : f_index f = map fst s).
  { apply (returns_index_from_first_series tbl_gap "close_to_open" [] "A" s ["B"%string] (fst r) f).
    - vm_compute. reflexivity.
    - intros u s' [].
    - exact Hs.
    - vm_compute. discriminate.
    - exact H. }
  split; [exact Hi|]. rewrite Hi. vm_compute. reflexivity.
Defined.

(** X4. For one of the three strategies, the returns DataFrame has at most
    one column per ticker, every ticker of the table yields either a column
    or a warning (the number of warnings plus the number of columns is the
    number of tickers), and no warned ticker has a column. *)
Theorem returns_columns_partition d st ws f :
  valid_strategy st -> calculate_returns d st = (ws, inr f) ->
  NoDup (map fst (f_cols f)) /\
  (List.length ws + List.length (f_cols f))%nat = List.length (tickers_of d) /\
  (forall t k, In (EWarn t k) ws -> ~ In t (map fst (f_cols f))).
Proof.
  intros Hv H. destruct (calc_loop_names d st (tickers_of d) empty_frame Hv) as [f' [Hf' Hn]].
  unfold calculate_returns in H. rewrite Hf' in H. injection H as <- <-.
  simpl in Hn. split; [|split].
  - rewrite Hn. apply NoDup_filter, NoDup_unique_aux.
  - rewrite <- (length_map fst (f_cols f')), Hn. apply warns_length, Hv.
  - intros t k Hw Hin. rewrite Hn, filter_In in Hin. destruct Hin as [_ Hs].
    unfold warns in Hw. apply in_flat_map in Hw as [u [_ Hu]].
    unfold succeeds in Hs.
    destruct (daily_returns d st u) as [[k'| |]|s'] eqn:E; try contradiction.
    destruct Hu as [Hu|[]]. injection Hu as -> _. rewrite E in Hs. discriminate.
Qed.

Lemma returns_columns_partition_witness :
  exists ws f, calculate_returns tbl_ab "buy_and_hold" = (ws, inr f) /\
    NoDup (map fst (f_cols f)) /\
    (List.length ws + List.length (f_cols f))%nat = List.length (tickers_of tbl_ab) /\
    (forall t k, In (EWarn t k) ws -> ~ In t (map fst (f_cols f))).
Proof.
  pose (r := calculate_returns tbl_ab "buy_and_hold").
  pose (f := match snd r with inr f => f | inl _ => empty_frame end).
  assert (H : calculate_returns tbl_ab "buy_and_hold" = (fst r, inr f))
    by (vm_compute; reflexivity).
  exists (fst r), f. split; [exact H|].
  apply (returns_columns_partition tbl_ab "buy_and_hold" (fst r) f); [right; right; reflexivity|exact H].
Defined.

(** ** The renderer *)

Lemma frame_col_in f t : frame_col f t <> None <-> In t (map fst (f_cols f)).
Proof.
  unfold frame_col. split.
  - destruct (find _ _) as [c|] eqn:E; [|contradiction]. intros _.
    apply find_some in E as [Hin Ht]. apply String.eqb_eq in Ht.
    apply in_map_iff. exists c. auto.
  - intro Hin. destruct (find _ _) as [c|] eqn:E; [discriminate|].
    apply in_map_iff in Hin as [c [Hc Hin]].
    pose proof (find_none _ _ E c Hin) as N. simpl in N.
    rewrite Hc, String.eqb_refl in N. discriminate.
Qed.

Lemma frame_get_cases f t :
  (exists col, frame_get f t = inr col /\ In t (map fst (f_cols f))) \/
  (frame_get f t = inl (KeyError (KFrame t)) /\ ~ In t (map fst (f_cols f))).
Proof.
  unfold frame_get. destruct (frame_col f t) as [col|] eqn:E.
  - left. exists col. split; [reflexivity|]. apply frame_col_in. rewrite E. discriminate.
  - right. split; [reflexivity|]. rewrite <- frame_col_in. rewrite E. tauto.
Qed.

Lemma plot_loop_outcome o c b inv ts :
  ((exists res, plot_loop o c b inv ts = inr res) <->
   Forall (fun t => In t (names o) /\ In t (names c) /\ In t (names b)) ts) /\
  (forall e, plot_loop o c b inv ts = inl e ->
   exists t, In t ts /\ e = KeyError (KFrame t) /\
     (~ In t (names o) \/ ~ In t (names c) \/ ~ In t (names b))).
Proof.
  unfold names. induction ts as [|t r [IHs IHe]]; simpl.
  - split; [split; [intros _; constructor|intros _; eauto]|discriminate].
  - destruct (frame_get_cases o t) as [[co [Eo Io]]|[Eo Io]]; rewrite Eo;
      [|split; [split; [intros [? H]; discriminate|intro H; inversion H as [|? ? [H1 _]]; contradiction]
               |intros e H; injection H as <-; exists t; auto]].
    destruct (frame_get_cases c t) as [[cc [Ec Ic]]|[Ec Ic]]; rewrite Ec;
      [|split; [split; [intros [? H]; discriminate|intro H; inversion H as [|? ? [_ [H1 _]]]; contradiction]
               |intros e H; injection H as <-; exists t; auto]].
    destruct (frame_get_cases b t) as [[cb [Eb Ib]]|[Eb Ib]]; rewrite Eb;
      [|split; [split; [intros [? H]; discriminate|intro H; inversion H as [|? ? [_ [_ H1]]]; contradiction]
               |intros e H; injection H as <-; exists t; auto 6]].
    destruct (plot_loop o c b inv r) as [e|[trs vals]] eqn:Er.
    + split; [split; [intros [? H]; discriminate|]|].
      * intro H. inversion H; subst. destruct (proj2 IHs) as [res Hres]; [assumption|discriminate].
      * intros e' H. injection H as <-. destruct (IHe e eq_refl) as [u [Hu Hr]]. eauto.
    + split; [split; [intros _; constructor; [auto|apply IHs; eauto]|eauto]|discriminate].
Qed.

Lemma plot_loop_names o c b inv ts trs vals :
  plot_loop o c b inv ts = inr (trs, vals) ->
  map tr_name trs =
    flat_map (fun t => [TStrategy t OpenToClose; TStrategy t CloseToOpen; TStrategy t BuyAndHold]) ts.
Proof.
  revert trs vals. induction ts as [|t r IH]; intros trs vals H; simpl in H.
  - injection H as <- <-. reflexivity.
  - destruct (frame_get o t); [discriminate|]. destruct (frame_get c t); [discriminate|].
    destruct (frame_get b t); [discriminate|].
    destruct (plot_loop o c b inv r) as [|[trs' vals']] eqn:Er; [discriminate|].
    injection H as <- <-. simpl. rewrite (IH trs' vals' eq_refl). reflexivity.
Qed.

Lemma all_some_none l : In None l -> all_some l = None.
Proof.
  induction l as [|[x|] r IH]; simpl; [tauto| |reflexivity].
  intros [H|H]; [discriminate|]. rewrite (IH H). reflexivity.
Qed.

Lemma log_range_lower_pos l : 0 < fst (log_range l).
Proof.
  assert (Ht : 0 < tenth) by (vm_compute; reflexivity).
  unfold log_range. cbv zeta. destruct (np_max l); simpl; [|exact Ht].
  destruct (qltb 0 _) eqn:E; [apply qltb_true, E|exact Ht].
Qed.

Lemma upper_pos (m n : Qc) : 0 < m -> n <= m -> 0 < m + tenth * (m - n).
Proof.
  intros Hm Hn.
  assert (H0 : 0 <= m - n) by (apply Qcle_minus_iff in Hn; exact Hn).
  assert (Hp : 0 <= tenth * (m - n)).
  { pose proof (Qcmult_le_compat_r 0 tenth (m - n) ltac:(vm_compute; discriminate) H0) as H.
    rewrite Qcmult_0_l in H. exact H. }
  apply Qclt_le_trans with m; [exact Hm|].
  pose proof (Qcplus_le_compat m m 0 (tenth * (m - n)) (Qcle_refl m) Hp) as H.
  rewrite Qcplus_0_r in H. exact H.
Qed.

(** X5. The renderer draws a figure exactly when the open-to-close
    DataFrame has at least one date and each of its tickers is also a
    column of the close-to-open and the buy-and-hold DataFrames. Otherwise
    it raises [KeyError] naming an open-to-close ticker missing from one of
    the other two, or [IndexError] when the open-to-close index is empty. *)
Theorem plot_investment_value_outcome o c b inv log :
  ((exists fig, plot_investment_value o c b inv log = inr fig) <->
   f_index o <> [] /\ forall t, In t (names o) -> In t (names c) /\ In t (names b)) /\
  (forall e, plot_investment_value o c b inv log = inl e ->
   (exists t, e = KeyError (KFrame t) /\ In t (names o) /\ (~ In t (names c) \/ ~ In t (names b))) \/
   (e = IndexError /\ f_index o = [])).
Proof.
  destruct (plot_loop_outcome o c b inv (map fst (f_cols o))) as [Hs He].
  unfold plot_investment_value.
  destruct (plot_loop o c b inv (map fst (f_cols o))) as [e|[trs vals]] eqn:Ep.
  - split.
    + split; [intros [? H]; discriminate|]. intros [_ H]. exfalso.
      destruct (proj2 Hs) as [res Hres]; [|discriminate].
      apply Forall_forall. intros t Ht. split; [exact Ht|apply H, Ht].
    + intros e' H. injection H as <-. left.
      destruct (He e eq_refl) as [t [Ht [-> Hn]]]. exists t. split; [reflexivity|].
      split; [exact Ht|]. unfold names in *. tauto.
  - destruct (f_index o) as [|d0 rest] eqn:Ei.
    + split; [split; [intros [? H]; discriminate|intros [H _]; contradiction H; reflexivity]|].
      intros e H. injection H as <-. right. auto.
    + split; [split; [intros _; split; [discriminate|]|eauto]|discriminate].
      intros t Ht. assert (HF : Forall (fun t => In t (names o) /\ In t (names c) /\ In t (names b))
                                  (map fst (f_cols o))) by (apply Hs; eauto).
      rewrite Forall_forall in HF. apply HF, Ht.
Qed.

(** X6. A figure holds, for each ticker of the open-to-close DataFrame in
    column order, its open-to-close, close-to-open and buy-and-hold traces,
    followed by one line at the initial investment from the first to the
    last open-to-close date. *)
Theorem figure_traces_layout o c b inv log fig :
  plot_investment_value o c b inv log = inr fig ->
  map tr_name (fig_traces fig) =
    flat_map (fun t => [TStrategy t OpenToClose; TStrategy t CloseToOpen; TStrategy t BuyAndHold])
             (names o) ++ [TInitial] /\
  exists d0 rest trs, f_index o = d0 :: rest /\
    fig_traces fig = trs ++ [mk_trace TInitial [d0; last (d0 :: rest) d0] [Some inv; Some inv]].
Proof.
  intro H. destruct (plot_ok o c b inv log fig H) as [trs [vals [d0 [rest [Hl [Hi ->]]]]]].
  simpl. rewrite map_app, (plot_loop_names _ _ _ _ _ _ _ Hl). split; [reflexivity|].
  exists d0, rest, trs. auto.
Qed.

Lemma figure_traces_layout_witness :
  exists fig, plot_investment_value fr_o fr_c fr_b (Q2Qc 100) false = inr fig /\
  map tr_name (fig_traces fig) =
    flat_map (fun t => [TStrategy t OpenToClose; TStrategy t CloseToOpen; TStrategy t BuyAndHold])
             (names fr_o) ++ [TInitial] /\
  exists d0 rest trs, f_index fr_o = d0 :: rest /\
    fig_traces fig = trs ++ [mk_trace TInitial [d0; last (d0 :: rest) d0] [Some (Q2Qc 100); Some (Q2Qc 100)]].
Proof.
  pose (fig := match plot_investment_value fr_o fr_c fr_b (Q2Qc 100) false with
               | inr f => f | inl _ => mk_figure [] None end).
  assert (H : plot_investment_value fr_o fr_c fr_b (Q2Qc 100) false = inr fig)
    by (vm_compute; reflexivity).
  exists fig. split; [exact H|]. exact (figure_traces_layout _ _ _ _ _ _ H).
Defined.

(** X7. With the logarithmic scale, the lower argument of [log10] in the
    y-axis range is always a positive number. When the initial investment
    is positive and no drawn value is [NaN], the upper argument is a
    positive number too, so both ends of the range are defined. *)
Theorem log_range_arguments_positive o c b inv fig :
  plot_investment_value o c b inv true = inr fig -> 0 < inv ->
  exists lo hi, fig_yrange fig = Some (lo, hi) /\ 0 < lo /\
    (forall xs, all_some (drawn_values fig) = Some xs -> exists h, hi = Some h /\ 0 < h).
Proof.
  intros Hp Hinv.
  destruct (plot_ok o c b inv true fig Hp) as [trs [vals [d0 [rest [Hl [_ ->]]]]]].
  destruct (plot_loop_traces o c b inv _ trs vals Hl) as [Hv _].
  exists (fst (log_range (vals ++ [Some inv]))), (snd (log_range (vals ++ [Some inv]))).
  split; [destruct (log_range _); reflexivity|]. split; [apply log_range_lower_pos|].
  intros xs Ha. unfold drawn_values in Ha. simpl in Ha.
  rewrite map_app, concat_app, <- Hv in Ha. simpl in Ha.
  apply all_some_map in Ha.
  destruct (map_Some_app_inv _ _ _ Ha) as [ys [b2 [-> [Hys Hb2]]]].
  destruct b2 as [|x1 [|x2 [|x3 b2]]]; try discriminate.
  injection Hb2 as <- <-.
  assert (Hz : vals ++ [Some inv] = map Some (ys ++ [inv]))
    by (rewrite map_app, Hys; reflexivity).
  assert (Hin : In inv (ys ++ [inv])) by (apply in_app_iff; right; left; reflexivity).
  rewrite Hz. destruct (ys ++ [inv]) as [|z zr] eqn:Ez; [destruct ys; discriminate|].
  rewrite log_range_numbers. cbv zeta.
  set (mx := fold_left qmax zr z).
  set (mn := match filter (qltb 0) (z :: zr) with
             | [] => tenth
             | y :: r => fold_left qmin r y
             end).
  eexists. split; [reflexivity|].
  destruct (fold_qmax_is_max zr z) as [Hmx Hall]. rewrite Forall_forall in Hall.
  apply upper_pos.
  - apply Qclt_le_trans with inv; [exact Hinv|apply Hall, Hin].
  - apply Hall. subst mn. destruct (filter (qltb 0) (z :: zr)) as [|y r] eqn:Ef.
    + exfalso. assert (Hy : In inv (filter (qltb 0) (z :: zr)))
        by (apply filter_In; split; [exact Hin|apply qltb_true, Hinv]).
      rewrite Ef in Hy. destruct Hy.
    + destruct (fold_qmin_is_min r y) as [Hmn _].
      assert (Hm : In (fold_left qmin r y) (filter (qltb 0) (z :: zr))) by (rewrite Ef; exact Hmn).
      apply filter_In in Hm. apply Hm.
Qed.

Lemma log_range_arguments_positive_witness :
  exists fig, plot_investment_value (fr_one (1 # 100)) (fr_one (1 # 100)) (fr_one (1 # 100))
                (Q2Qc 100) true = inr fig /\
  exists lo hi, fig_yrange fig = Some (lo, hi) /\ 0 < lo /\
    (forall xs, all_some (drawn_values fig) = Some xs -> exists h, hi = Some h /\ 0 < h).
Proof.
  pose (fig := match plot_investment_value (fr_one (1 # 100)) (fr_one (1 # 100)) (fr_one (1 # 100))
                       (Q2Qc 100) true with inr f => f | inl _ => mk_figure [] None end).
  assert (H : plot_investment_value (fr_one (1 # 100)) (fr_one (1 # 100)) (fr_one (1 # 100))
                (Q2Qc 100) true = inr fig) by (vm_compute; reflexivity).
  exists fig. split; [exact H|].
  exact (log_range_arguments_positive _ _ _ _ _ H ltac:(vm_compute; reflexivity)).
Defined.

(** X8. With the logarithmic scale, as soon as one drawn value is [NaN]
    (a [NaN] cell of a returns DataFrame) the y-axis range is
    [[log10(0.1), NaN]]: [np.max] propagates the [NaN], and every comparison
    with it is false. *)
Theorem log_range_nan o c b inv fig :
  plot_investment_value o c b inv true = inr fig -> In None (drawn_values fig) ->
  fig_yrange fig = Some (tenth, None).
Proof.
  intros Hp Hn.
  destruct (plot_ok o c b inv true fig Hp) as [trs [vals [d0 [rest [Hl [_ ->]]]]]].
  destruct (plot_loop_traces o c b inv _ trs vals Hl) as [Hv _].
  unfold drawn_values in Hn. simpl in Hn.
  rewrite map_app, concat_app, <- Hv in Hn. simpl in Hn.
  apply in_app_iff in Hn as [Hn|[H|[H|[]]]]; try discriminate.
  simpl. unfold log_range, np_max. rewrite all_some_none by (apply in_app_iff; left; exact Hn).
  reflexivity.
Qed.

Lemma log_range_nan_witness :
  exists fig,
    plot_investment_value (mk_frame [1; 2]%nat [("T"%string, [px 1; None])])
      (fr_one 1) (fr_one 1) (Q2Qc 100) true = inr fig /\
    In None (drawn_values fig) /\ fig_yrange fig = Some (tenth, None).
Proof.
  pose (fig := match plot_investment_value (mk_frame [1; 2]%nat [("T"%string, [px 1; None])])
                       (fr_one 1) (fr_one 1) (Q2Qc 100) true with
               | inr f => f | inl _ => mk_figure [] None end).
  assert (H : plot_investment_value (mk_frame [1; 2]%nat [("T"%string, [px 1; None])])
                (fr_one 1) (fr_one 1) (Q2Qc 100) true = inr fig) by (vm_compute; reflexivity).
  assert (Hn : In None (drawn_values fig)) by (vm_compute; right; left; reflexivity).
  exists fig. split; [exact H|]. split; [exact Hn|]. exact (log_range_nan _ _ _ _ _ H Hn).
Defined.

(** ** The driver *)

Lemma main_run_computed input inv log fetch d w1 w2 w3 o c b r :
  fetch (parse_tickers input) = inr d -> table_empty d = false ->
  calculate_returns d "open_to_close" = (w1, inr o) ->
  calculate_returns d "close_to_open" = (w2, inr c) ->
  calculate_returns d "buy_and_hold" = (w3, inr b) ->
  plot_investment_value o c b inv log = r ->
  main_run input inv log fetch =
    EFetch (parse_tickers input) :: w1 ++ w2 ++ w3 ++
      [match r with inl e => EExc e | inr fig => EChart fig end].
Proof.
  intros Hf He Ho Hc Hb Hp. unfold main_run.
  pose proof (parse_tickers_nonempty input) as Hn.
  destruct (parse_tickers input) as [|t ts]; [contradiction Hn; reflexivity|].
  unfold run_backtest. rewrite bind_emit. unfold lift. rewrite Hf.
  cbn [bind]. rewrite He, Ho. cbn [bind]. rewrite Hc. cbn [bind]. rewrite Hb. cbn [bind].
  rewrite Hp. destruct r as [e|fig]; simpl; rewrite ?app_nil_r, <- ?app_assoc; reflexivity.
Qed.

Lemma calculate_returns_warns_only d st :
  valid_strategy st ->
  exists ws f, calculate_returns d st = (ws, inr f) /\
    Forall (fun e => exists t k, e = EWarn t k) ws.
Proof.
  intro Hv. destruct (calculate_returns_columns d st Hv) as [ws [f [Hf [_ [Hw _]]]]].
  exists ws, f. split; [exact Hf|]. apply Forall_forall. intros e He.
  destruct (Hw e He) as [t [fld [-> _]]]. eauto.
Qed.

(** X9. Once the button is pressed, [main] always shows the fetch, then
    only per-ticker warnings, then exactly one final outcome: the "no
    data" message, an error message, or the chart. *)
Theorem main_run_shape input inv log fetch :
  exists ws fin,
    main_run input inv log fetch = EFetch (parse_tickers input) :: ws ++ [fin] /\
    Forall (fun e => exists t k, e = EWarn t k) ws /\
    (fin = ENoData \/ (exists e, fin = EExc e) \/ (exists fig, fin = EChart fig)).
Proof.
  destruct (fetch (parse_tickers input)) as [e|d] eqn:Hf.
  - exists [], (EExc e). split; [|split; [constructor|eauto]].
    unfold main_run. pose proof (parse_tickers_nonempty input) as Hn.
    destruct (parse_tickers input) as [|t ts]; [contradiction Hn; reflexivity|].
    unfold run_backtest. rewrite bind_emit. unfold lift. rewrite Hf. reflexivity.
  - destruct (table_empty d) eqn:He.
    + exists [], ENoData. split; [|split; [constructor|auto]].
      exact (main_run_no_data input inv log fetch d Hf He).
    + destruct (calculate_returns_warns_only d "open_to_close") as [w1 [o [Ho F1]]]; [left; reflexivity|].
      destruct (calculate_returns_warns_only d "close_to_open") as [w2 [c [Hc F2]]]; [right; left; reflexivity|].
      destruct (calculate_returns_warns_only d "buy_and_hold") as [w3 [b [Hb F3]]]; [right; right; reflexivity|].
      exists (w1 ++ w2 ++ w3),
        (match plot_investment_value o c b inv log with inl e => EExc e | inr fig => EChart fig end).
      split; [|split].
      * rewrite (main_run_computed input inv log fetch d w1 w2 w3 o c b _ Hf He Ho Hc Hb eq_refl).
        rewrite <- !app_assoc. reflexivity.
      * apply Forall_app. split; [exact F1|]. apply Forall_app. auto.
      * destruct (plot_investment_value o c b inv log); eauto.
Qed.

Lemma tickers_of_cols d : tickers_of d <> [] -> t_cols d <> [].
Proof. intros H Hc. apply H, tickers_of_no_cols, Hc. Qed.

Lemma filter_all_true {A} (g : A -> bool) l :
  (forall x, In x l -> g x = true) -> filter g l = l.
Proof.
  induction l as [|x r IH]; intro H; simpl; [reflexivity|].
  rewrite (H x (or_introl eq_refl)), IH; [reflexivity|]. intros y Hy. apply H. right; exact Hy.
Qed.

Lemma warns_nil d st ts :
  (forall t, In t ts -> succeeds d st t = true) -> warns d st ts = [].
Proof.
  induction ts as [|t r IH]; intro H; [reflexivity|].
  unfold warns in *. simpl. pose proof (H t (or_introl eq_refl)) as Ht.
  unfold succeeds in Ht. destruct (daily_returns d st t); [discriminate|].
  apply IH. intros u Hu. apply H. right; exact Hu.
Qed.

Lemma no_warns_when_complete d st ws f :
  valid_strategy st -> calculate_returns d st = (ws, inr f) ->
  (forall t, In t (tickers_of d) -> has_fields d st t) ->
  ws = [] /\ names f = tickers_of d.
Proof.
  intros Hv H Hall.
  assert (Hs : forall t, In t (tickers_of d) -> succeeds d st t = true)
    by (intros t Ht; apply succeeds_has_fields; [exact Hv|apply Hall, Ht]).
  destruct (calc_loop_names d st (tickers_of d) empty_frame Hv) as [f' [Hf' Hn]].
  unfold calculate_returns in H. rewrite Hf' in H. injection H as <- <-.
  split; [apply warns_nil, Hs|].
  unfold names. rewrite Hn. simpl. apply filter_all_true, Hs.
Qed.

(** X10. When the fetched table has at least one date and one ticker,
    every column has one cell per date, and every ticker has Open, Close
    and Adj Close columns, [main] shows no warning and no error: it shows
    the chart right after the fetch. *)
Theorem main_run_complete_table input inv log fetch d :
  fetch (parse_tickers input) = inr d -> wf_table d ->
  t_index d <> [] -> tickers_of d <> [] ->
  (forall t, In t (tickers_of d) ->
     (exists op, get_col d "Open" t = inr op) /\
     (exists cl, get_col d "Close" t = inr cl) /\
     (exists ac, get_col d "Adj Close" t = inr ac)) ->
  exists fig, main_run input inv log fetch = [EFetch (parse_tickers input); EChart fig].
Proof.
  intros Hf Hwf Hi Ht Hall.
  assert (He : table_empty d = false).
  { unfold table_empty. destruct (t_index d); [contradiction Hi; reflexivity|].
    destruct (t_cols d) eqn:Ec; [contradiction (tickers_of_cols d Ht Ec)|reflexivity]. }
  destruct (calculate_returns_warns_only d "open_to_close") as [w1 [o [Ho _]]]; [left; reflexivity|].
  destruct (calculate_returns_warns_only d "close_to_open") as [w2 [c [Hc _]]]; [right; left; reflexivity|].
  destruct (calculate_returns_warns_only d "buy_and_hold") as [w3 [b [Hb _]]]; [right; right; reflexivity|].
  destruct (no_warns_when_complete d "open_to_close" w1 o) as [-> No]; [left; reflexivity|exact Ho|
    intros t Hu; destruct (Hall t Hu) as [? [? _]]; split; assumption|].
  destruct (no_warns_when_complete d "close_to_open" w2 c) as [-> Nc]; [right; left; reflexivity|exact Hc|
    intros t Hu; destruct (Hall t Hu) as [? [? _]]; split; assumption|].
  destruct (no_warns_when_complete d "buy_and_hold" w3 b) as [-> Nb]; [right; right; reflexivity|exact Hb|
    intros t Hu; destruct (Hall t Hu) as [_ [_ ?]]; assumption|].
  assert (Hio : f_index o <> []).
  { destruct (tickers_of d) as [|t0 ts] eqn:Et; [contradiction Ht; reflexivity|].
    destruct (Hall t0 (or_introl eq_refl)) as [[op Eop] [[cl Ecl] _]].
    assert (Hs : daily_returns d "open_to_close" t0 =
                 inr (combine (t_index d) (map ratio_minus_one (combine cl op))))
      by (unfold daily_returns; simpl; rewrite Ecl, Eop; reflexivity).
    unfold calculate_returns in Ho. rewrite Et in Ho.
    assert (Hne : combine (t_index d) (map ratio_minus_one (combine cl op)) <> []).
    { intro E. apply Hi. rewrite <- (o2c_dates d t0 _ Hwf Hs), E. reflexivity. }
    rewrite (calc_loop_index_first d _ [] t0 _ ts empty_frame _ o eq_refl
               (fun u s' H => match H with end) Hs Hne Ho).
    rewrite (o2c_dates d t0 _ Hwf Hs). exact Hi. }
  destruct (plot_investment_value o c b inv log) as [e|fig] eqn:Hp.
  - exfalso. destruct (plot_loop_outcome o c b inv (map fst (f_cols o))) as [Hok _].
    unfold plot_investment_value in Hp.
    destruct (plot_loop o c b inv (map fst (f_cols o))) as [e'|[trs vals]] eqn:Hl.
    + destruct (proj2 Hok) as [res Hres]; [|congruence].
      apply Forall_forall. intros t Hu. fold (names o) in Hu.
      rewrite No in Hu. rewrite No, Nc, Nb. auto.
    + destruct (f_index o); [contradiction Hio; reflexivity|discriminate].
  - exists fig.
    rewrite (main_run_computed input inv log fetch d [] [] [] o c b _ Hf He Ho Hc Hb Hp).
    reflexivity.
Qed.

Lemma main_run_complete_table_witness :
  exists fig, main_run "a" (Q2Qc 100) false (fetch_const tbl_full) =
              [EFetch (parse_tickers "a"); EChart fig].
Proof.
  apply (main_run_complete_table "a" _ _ (fetch_const tbl_full) tbl_full).
  - reflexivity.
  - unfold wf_table. repeat constructor.
  - discriminate.
  - vm_compute. discriminate.
  - intros t Ht. vm_compute in Ht. destruct Ht as [<-|[]].
    repeat split; eexists; reflexivity.
Defined.

(** ** Daily-return series of the three strategies *)

Lemma ratio_minus_one_none a b :
  ratio_minus_one (a, b) = None <-> a = None \/ b = None \/ b = Some 0.
Proof.
  unfold ratio_minus_one, vdiv, vsub. destruct a as [x|], b as [y|]; simpl.
  - destruct (qeqb y 0) eqn:E.
    + apply qeqb_true in E. subst. tauto.
    + split; [discriminate|]. intros [H|[H|H]]; try discriminate.
      injection H as ->. vm_compute in E. discriminate.
  - tauto.
  - tauto.
  - tauto.
Qed.

Lemma combine_app_eq {A B} (a b : list A) (c e : list B) :
  List.length a = List.length c -> combine (a ++ b) (c ++ e) = combine a c ++ combine b e.
Proof.
  revert c. induction a as [|x a IH]; intros [|y c] H; simpl in *; try lia; [reflexivity|].
  f_equal. apply IH. lia.
Qed.

Lemma dropna_app s1 s2 : dropna (s1 ++ s2) = dropna s1 ++ dropna s2.
Proof. apply filter_app. Qed.

Lemma in_dropna_dates x s : In x (map fst (dropna s)) -> In x (map fst s).
Proof.
  intro H. apply in_map_iff in H as [p [<- Hp]]. apply filter_In in Hp as [Hp _].
  apply in_map, Hp.
Qed.

Lemma in_combine_dates {B} x (l1 : list date) (l2 : list B) :
  In x (map fst (combine l1 l2)) -> In x l1.
Proof.
  intro H. apply in_map_iff in H as [[y v] [Hy Hp]]. simpl in Hy. subst y.
  apply in_combine_l in Hp. exact Hp.
Qed.

Lemma dropna_some (idx : list date) (xs : list Qc) :
  dropna (combine idx (map Some xs)) = combine idx (map Some xs).
Proof.
  revert xs. induction idx as [|x idx IH]; intros [|y xs]; simpl; try reflexivity.
  rewrite IH. reflexivity.
Qed.

Lemma pct_change_ratios a l :
  Forall (fun x => x <> 0) (a :: l) ->
  map (fun p => vsub (vdiv (snd p) (fst p)) 1) (combine (Some a :: map Some l) (map Some l)) =
  map Some (map (fun p => snd p / fst p - 1) (combine (a :: l) l)).
Proof.
  revert a. induction l as [|b l IH]; intros a H; [reflexivity|].
  inversion H as [|? ? Ha Hl]; subst.
  change (combine (Some a :: map Some (b :: l)) (map Some (b :: l)))
    with ((Some a, Some b) :: combine (Some b :: map Some l) (map Some l)).
  change (combine (a :: b :: l) (b :: l)) with ((a, b) :: combine (b :: l) l).
  cbn [map fst snd]. rewrite (IH b Hl).
  unfold vdiv, vsub. rewrite (qeqb_false a 0 Ha). reflexivity.
Qed.

Lemma cumprod_telescopes a l q :
  Forall (fun x => x <> 0) (a :: l) ->
  cumprod_from q (map (fun r => vadd 1 (Some r)) (map (fun p => snd p / fst p - 1) (combine (a :: l) l))) =
  map (fun x => Some (q * (x / a))) l.
Proof.
  revert a q. induction l as [|b l IH]; intros a q H; [reflexivity|].
  inversion H as [|? ? Ha Hl]; subst. inversion Hl as [|? ? Hb _]; subst.
  change (combine (a :: b :: l) (b :: l)) with ((a, b) :: combine (b :: l) l).
  cbn [map cumprod_from vadd option_map fst snd]. rewrite (IH b _ Hl).
  f_equal; [f_equal; field; exact Ha|].
  apply map_ext. intro x. f_equal. field. split; assumption.
Qed.

(** X11. On a table whose columns have one cell per date, the
    open-to-close daily-return series of a ticker with Open and Close
    columns and no Open price equal to 0 keeps every date of the table (no
    [dropna]); its value at a date is [NaN] exactly when the Close or the
    Open price of that date is [NaN]. *)
Theorem open_to_close_daily_nan d t cl op :
  wf_table d -> get_col d "Close" t = inr cl -> get_col d "Open" t = inr op ->
  ~ In (Some 0) op ->
  exists s, daily_returns d "open_to_close" t = inr s /\ map fst s = t_index d /\
    forall i, (i < List.length (t_index d))%nat ->
      (nth i (map snd s) None = None <-> nth i cl None = None \/ nth i op None = None).
Proof.
  intros Hwf Hc Ho Hz.
  pose proof (get_col_length d _ _ _ Hwf Hc) as Lc. pose proof (get_col_length d _ _ _ Hwf Ho) as Lo.
  exists (combine (t_index d) (map ratio_minus_one (combine cl op))).
  split; [unfold daily_returns; simpl; rewrite Hc, Ho; reflexivity|].
  assert (L : List.length (map ratio_minus_one (combine cl op)) = List.length (t_index d))
    by (rewrite length_map, length_combine; lia).
  split; [apply fst_combine; lia|].
  intros i Hi. rewrite snd_combine by lia.
  assert (E : nth i (map ratio_minus_one (combine cl op)) None =
               ratio_minus_one (nth i (combine cl op) (None, None)))
    by (apply (map_nth ratio_minus_one (combine cl op) (None, None) i)).
  rewrite E, combine_nth by (transitivity (List.length (t_index d)); [exact Lc|symmetry; exact Lo]).
  rewrite ratio_minus_one_none.
  assert (Hn : nth i op None <> Some 0).
  { intro H0. apply Hz. rewrite <- H0. apply nth_In.
    rewrite <- Lo in Hi. exact Hi. }
  tauto.
Qed.

Lemma open_to_close_daily_nan_witness :
  exists cl op s,
    get_col tbl_gap "Close" "A" = inr cl /\ get_col tbl_gap "Open" "A" = inr op /\
    daily_returns tbl_gap "open_to_close" "A" = inr s /\ map fst s = t_index tbl_gap /\
    forall i, (i < List.length (t_index tbl_gap))%nat ->
      (nth i (map snd s) None = None <-> nth i cl None = None \/ nth i op None = None).
Proof.
  pose (cl := match get_col tbl_gap "Close" "A" with inr c => c | inl _ => [] end).
  pose (op := match get_col tbl_gap "Open" "A" with inr c => c | inl _ => [] end).
  assert (Hc : get_col tbl_gap "Close" "A" = inr cl) by (vm_compute; reflexivity).
  assert (Ho : get_col tbl_gap "Open" "A" = inr op) by (vm_compute; reflexivity).
  assert (Hwf : wf_table tbl_gap) by (unfold wf_table; repeat constructor).
  assert (Hz : ~ In (Some 0) op).
  { unfold op; vm_compute. intros [H|[H|[H|[]]]]; try discriminate;
      injection H as H; apply (f_equal this) in H; vm_compute in H; discriminate. }
  exists cl, op. destruct (open_to_close_daily_nan _ _ cl op Hwf Hc Ho Hz) as [s Hs].
  exists s. split; [exact Hc|]. split; [exact Ho|]. exact Hs.
Defined.

(** X12. On a table whose columns have one cell per date and whose dates
    are distinct, the close-to-open daily-return series never has a value
    at the last date of the table: [Open.shift(-1)] is [NaN] there and
    [dropna] removes it. *)
Theorem close_to_open_no_last_date d t s x0 :
  wf_table d -> NoDup (t_index d) ->
  daily_returns d "close_to_open" t = inr s ->
  ~ In (last (t_index d) x0) (map fst s).
Proof.
  intros Hwf Hnd. unfold daily_returns; simpl.
  destruct (get_col d "Open" t) as [|op] eqn:Eo; [discriminate|].
  destruct (get_col d "Close" t) as [|cl] eqn:Ec; [discriminate|].
  intro H. injection H as <-.
  pose proof (get_col_length d _ _ _ Hwf Eo) as Lo. pose proof (get_col_length d _ _ _ Hwf Ec) as Lc.
  destruct (t_index d) as [|x1 idx1] eqn:Ei; [simpl; tauto|].
  set (xl := last (x1 :: idx1) x0). set (idx' := removelast (x1 :: idx1)).
  assert (Hidx : x1 :: idx1 = idx' ++ [xl]) by (apply app_removelast_last; discriminate).
  assert (Lidx : List.length idx' = List.length idx1)
    by (apply (f_equal (@List.length date)) in Hidx; rewrite length_app in Hidx; simpl in *; lia).
  destruct op as [|o0 op']; [simpl in Lo; lia|]. simpl in Lo.
  assert (Hcl : cl = removelast cl ++ [last cl None])
    by (apply app_removelast_last; intro E; rewrite E in Lc; simpl in Lc; lia).
  assert (Lcl : List.length (removelast cl) = List.length idx1)
    by (apply (f_equal (@List.length value)) in Hcl; rewrite length_app in Hcl; simpl in *; lia).
  cbn [shift_m1]. rewrite Hcl, combine_app_eq by lia. rewrite map_app.
  rewrite Hidx, combine_app_eq by (rewrite length_map, length_combine; lia).
  rewrite dropna_app. cbn [combine map ratio_minus_one fst snd vdiv vsub option_map dropna filter].
  rewrite app_nil_r. intro Hin. apply in_dropna_dates, in_combine_dates in Hin.
  rewrite Hidx in Hnd. apply (NoDup_remove_2 idx' [] xl) in Hnd. rewrite app_nil_r in Hnd.
  exact (Hnd Hin).
Qed.

Lemma close_to_open_no_last_date_witness :
  exists s, daily_returns tbl_gap "close_to_open" "B" = inr s /\
    ~ In (last (t_index tbl_gap) 0%nat) (map fst s).
Proof.
  pose (s := match daily_returns tbl_gap "close_to_open" "B" with inr s => s | inl _ => [] end).
  assert (Hs : daily_returns tbl_gap "close_to_open" "B" = inr s) by (vm_compute; reflexivity).
  exists s. split; [exact Hs|].
  apply (close_to_open_no_last_date tbl_gap "B" s 0%nat); [unfold wf_table; repeat constructor| |exact Hs].
  vm_compute. repeat constructor; simpl; intuition discriminate.
Defined.

(** X13. When the dates of the table are distinct, the buy-and-hold
    daily-return series never has a value at the first date of the table:
    [pct_change] is [NaN] there and [dropna] removes it. *)
Theorem buy_and_hold_no_first_date d t s x0 rest :
  t_index d = x0 :: rest -> NoDup (t_index d) ->
  daily_returns d "buy_and_hold" t = inr s ->
  ~ In x0 (map fst s).
Proof.
  intros Hi Hnd. unfold daily_returns; simpl.
  destruct (get_col d "Adj Close" t) as [|ac] eqn:Ea; [discriminate|].
  intro H. injection H as <-. rewrite Hi in *.
  destruct ac as [|a ac']; [simpl; tauto|].
  cbn [pct_change combine dropna filter snd]. intro Hin.
  apply in_dropna_dates, in_combine_dates in Hin.
  inversion Hnd; contradiction.
Qed.

Lemma buy_and_hold_no_first_date_witness :
  exists s, daily_returns tbl_ab "buy_and_hold" "A" = inr s /\ ~ In 1%nat (map fst s).
Proof.
  pose (s := match daily_returns tbl_ab "buy_and_hold" "A" with inr s => s | inl _ => [] end).
  assert (Hs : daily_returns tbl_ab "buy_and_hold" "A" = inr s) by (vm_compute; reflexivity).
  exists s. split; [exact Hs|].
  apply (buy_and_hold_no_first_date tbl_ab "A" s 1%nat [2%nat]); [reflexivity| |exact Hs].
  repeat constructor; simpl; intuition discriminate.
Defined.

(** X14. For a ticker whose Adj Close prices [a0, a1, ..., an] are numbers
    on every date [d0, ..., dn] (none of them 0), the buy-and-hold
    cumulative series is, at each date [di] with [i >= 1], the price ratio
    [ai / a0]; the first date has no value. *)
Theorem buy_and_hold_cumulative_price_ratio d t a0 l :
  get_col d "Adj Close" t = inr (map Some (a0 :: l)) ->
  List.length (t_index d) = S (List.length l) ->
  Forall (fun a => a <> 0) (a0 :: l) ->
  exists s, daily_returns d "buy_and_hold" t = inr s /\
    cumulative s = combine (tl (t_index d)) (map (fun x => Some (x / a0)) l).
Proof.
  intros Ha Hl Hnz. unfold daily_returns; simpl. rewrite Ha.
  destruct (t_index d) as [|x0 idx'] eqn:Ei; [discriminate|]. simpl in Hl.
  eexists. split; [reflexivity|].
  change (pct_change (map Some (a0 :: l)))
    with (None :: map (fun p => vsub (vdiv (snd p) (fst p)) 1)
                       (combine (Some a0 :: map Some l) (map Some l))).
  rewrite (pct_change_ratios a0 l Hnz).
  cbn [combine dropna filter snd]. fold (dropna (combine idx' (map Some (map (fun p => snd p / fst p - 1) (combine (a0 :: l) l))))).
  rewrite dropna_some.
  change (match l with [] => [] | y :: tl' => (a0, y) :: combine l tl' end)
    with (combine (a0 :: l) l).
  set (rs := map (fun p => snd p / fst p - 1) (combine (a0 :: l) l)).
  assert (Lr : List.length rs = List.length idx').
  { unfold rs. rewrite length_map, length_combine. cbn [List.length]. rewrite Nat.min_r by apply Nat.le_succ_diag_r. lia. }
  unfold cumulative. rewrite fst_combine by (rewrite length_map, Lr; apply le_n).
  rewrite <- (map_map snd (vadd 1)), snd_combine by (rewrite length_map, Lr; apply le_n).
  rewrite map_map. simpl tl. f_equal.
  unfold rs. rewrite (cumprod_telescopes a0 l 1 Hnz).
  apply map_ext. intro x. rewrite Qcmult_1_l. reflexivity.
Qed.

Lemma buy_and_hold_cumulative_price_ratio_witness :
  exists s, daily_returns tbl_full "buy_and_hold" "A" = inr s /\
    cumulative s = combine [2%nat] [Some (Q2Qc 11 / Q2Qc 10)].
Proof.
  apply (buy_and_hold_cumulative_price_ratio tbl_full "A" (Q2Qc 10) [Q2Qc 11]).
  - reflexivity.
  - reflexivity.
  - repeat constructor; intro H; apply (f_equal this) in H; vm_compute in H; discriminate.
Defined.

(** ** Parsing of the ticker input *)

Lemma upper_char_comma a : Ascii.eqb (upper_char a) ","%char = Ascii.eqb a ","%char.
Proof.
  destruct a as [b0 b1 b2 b3 b4 b5 b6 b7].
  destruct b0, b1, b2, b3, b4, b5, b6, b7; reflexivity.
Qed.

Lemma upper_char_not_lower a : is_lower (upper_char a) = false.
Proof.
  destruct a as [b0 b1 b2 b3 b4 b5 b6 b7].
  destruct b0, b1, b2, b3, b4, b5, b6, b7; reflexivity.
Qed.

Lemma py_split_comma_length s : List.length (py_split_comma s) = S (commas s).
Proof.
  unfold commas. induction s as [|a r IH]; simpl; [reflexivity|].
  destruct (Ascii.eqb a ","%char); simpl; [rewrite IH; reflexivity|].
  destruct (py_split_comma r); simpl in *; [discriminate|exact IH].
Qed.

Lemma commas_py_upper s : commas (py_upper s) = commas s.
Proof.
  unfold commas, py_upper. rewrite list_ascii_of_string_of_list_ascii.
  induction (list_ascii_of_string s) as [|a l IH]; simpl; [reflexivity|].
  rewrite upper_char_comma. destruct (Ascii.eqb a ","%char); simpl; rewrite ?IH; reflexivity.
Qed.

Lemma py_split_comma_no_comma s :
  Forall (fun x => Forall (fun a => Ascii.eqb a ","%char = false) (list_ascii_of_string x))
         (py_split_comma s).
Proof.
  induction s as [|a r IH]; simpl; [repeat constructor|].
  destruct (Ascii.eqb a ","%char) eqn:E; [constructor; [constructor|exact IH]|].
  destruct (py_split_comma r) as [|h tl]; [repeat constructor; exact E|].
  inversion IH as [|? ? Hh Htl]; subst.
  constructor; [constructor; [exact E|exact Hh]|exact Htl].
Qed.

Lemma py_split_comma_chars s :
  Forall (fun x => forall a, In a (list_ascii_of_string x) -> In a (list_ascii_of_string s))
         (py_split_comma s).
Proof.
  induction s as [|a r IH]; simpl; [constructor; [intros a []|constructor]|].
  assert (Hr : Forall (fun x => forall b, In b (list_ascii_of_string x) ->
                                  In b (a :: list_ascii_of_string r)) (py_split_comma r)).
  { eapply Forall_impl; [|exact IH]. intros x Hx b Hb. right. apply Hx, Hb. }
  destruct (Ascii.eqb a ","%char); [constructor; [intros b []|exact Hr]|].
  destruct (py_split_comma r) as [|h tl]; [constructor; [|constructor]|].
  - intros b [<-|[]]. left. reflexivity.
  - inversion Hr as [|? ? Hh Htl]; subst. constructor; [|exact Htl].
    intros b [<-|Hb]; [left; reflexivity|apply Hh, Hb].
Qed.

Lemma drop_spaces_head l a r : drop_spaces l = a :: r -> is_space a = false.
Proof.
  induction l as [|b l IH]; simpl; [discriminate|].
  destruct (is_space b) eqn:E; [exact IH|]. intro H. injection H as <- _. exact E.
Qed.

Lemma drop_spaces_suffix l : exists p, l = p ++ drop_spaces l.
Proof.
  induction l as [|b l [p IH]]; simpl; [exists []; reflexivity|].
  destruct (is_space b); [exists (b :: p); simpl; rewrite <- IH; reflexivity|exists []; reflexivity].
Qed.

Lemma in_drop_spaces a l : In a (drop_spaces l) -> In a l.
Proof.
  destruct (drop_spaces_suffix l) as [p Hp]. intro H. rewrite Hp. apply in_or_app. right. exact H.
Qed.

Lemma py_strip_chars x a :
  In a (list_ascii_of_string (py_strip x)) -> In a (list_ascii_of_string x).
Proof.
  unfold py_strip. rewrite list_ascii_of_string_of_list_ascii. intro H.
  rewrite <- in_rev in H. apply in_drop_spaces in H.
  rewrite <- in_rev in H. apply in_drop_spaces in H. exact H.
Qed.

Lemma py_strip_first x a r :
  list_ascii_of_string (py_strip x) = a :: r -> is_space a = false.
Proof.
  unfold py_strip. rewrite list_ascii_of_string_of_list_ascii.
  set (m := drop_spaces (list_ascii_of_string x)).
  destruct (drop_spaces_suffix (rev m)) as [q Hq]. intro H.
  assert (Hm : m = a :: r ++ rev q).
  { rewrite <- (rev_involutive m), Hq, rev_app_distr, H. reflexivity. }
  unfold m in Hm. exact (drop_spaces_head _ _ _ Hm).
Qed.

Lemma py_strip_last x a r :
  list_ascii_of_string (py_strip x) = r ++ [a] -> is_space a = false.
Proof.
  unfold py_strip. rewrite list_ascii_of_string_of_list_ascii. intro H.
  apply (f_equal (@rev ascii)) in H. rewrite rev_involutive, rev_app_distr in H. simpl in H.
  exact (drop_spaces_head _ _ _ H).
Qed.

(** X15. The ticker input yields one ticker per comma-separated piece, at
    most five: with [k] commas in the input there are [min 5 (k + 1)]
    tickers, blank pieces included. *)
Theorem parse_tickers_count input :
  List.length (parse_tickers input) = Nat.min 5 (S (commas input)).
Proof.
  unfold parse_tickers.
  rewrite length_firstn, length_map, py_split_comma_length, commas_py_upper.
  reflexivity.
Qed.

(** X16. Every ticker passed to the download contains no comma and no
    lowercase letter a-z, and neither begins nor ends with whitespace. *)
Theorem parse_tickers_shape input :
  Forall (fun t =>
    Forall (fun a => Ascii.eqb a ","%char = false /\ is_lower a = false)
           (list_ascii_of_string t) /\
    (forall a r, list_ascii_of_string t = a :: r -> is_space a = false) /\
    (forall a r, list_ascii_of_string t = r ++ [a] -> is_space a = false))
  (parse_tickers input).
Proof.
  unfold parse_tickers. apply Forall_firstn_keep. apply Forall_map.
  pose proof (py_split_comma_no_comma (py_upper input)) as Hn.
  pose proof (py_split_comma_chars (py_upper input)) as Hc.
  apply Forall_forall. intros x Hx.
  rewrite Forall_forall in Hn, Hc. specialize (Hn x Hx). specialize (Hc x Hx).
  rewrite Forall_forall in Hn.
  split; [|split; intros a r; [apply py_strip_first|apply py_strip_last]].
  apply Forall_forall. intros a Ha. pose proof (py_strip_chars x a Ha) as Hx'. split.
  - apply Hn, Hx'.
  - apply Hc in Hx'. unfold py_upper in Hx'. rewrite list_ascii_of_string_of_list_ascii in Hx'.
    apply in_map_iff in Hx' as [b [<- _]]. apply upper_char_not_lower.
Qed.
